(** * The PsychonautWiki connector of bifrost: a stale-while-revalidate cache

    Shallow embedding of [src/server/services/graph.js] (the connector part:
    [BifrostCache], [PwConnector]) and the properties its specification
    states about it.

    Conventions.
    - JavaScript strings are modelled by [string], read as their UTF-8
      encoding (this is what [querystring.escape] percent-encodes).
    - [Date.now()] is an integer number of milliseconds, modelled in [Z];
      every synchronous segment of code receives the reading of the clock
      as an argument [now].
    - A [Map] is a [gmap]; a plain object used as an ordered record of
      query parameters is an association list in property order.
    - Coroutines ([Promise.coroutine], generators) run synchronously up to
      [yield this._fetchUrl(url)], the only suspension point of the file.
      A suspended coroutine is kept as a defunctionalised continuation
      ([Cont]) in the list of outstanding requests and resumed when the
      request settles.
    - The libraries the connector calls are modelled by their documented
      behaviour: lodash ([_.defaults]), Node's [querystring], bluebird
      ([Promise.coroutine], [Promise.all]), request-promise and dataloader
      ([load], the dispatch of a batch, [clear] after a failed batch). *)

From Stdlib Require Import ZArith Ascii String List Lia.
From stdpp Require Import base option list gmap strings fin_maps.

Local Open Scope Z_scope.

(** ** Values exchanged with the wiki *)

(** Decoded JSON, as [request-promise] delivers it with [json: true]. *)
#[local] Unset Elimination Schemes.
Inductive Json : Type :=
| JNull
| JBool (b : bool)
| JNum (n : Z)
| JStr (s : string)
| JArr (l : list Json)
| JObj (fields : list (string * Json)).
#[local] Set Elimination Schemes.

(** The full response ([resolveWithFullResponse: true]); the connector only
    ever reads [body]. *)
Record Response : Type := mkResponse {
  statusCode : Z;
  headers : list (string * string);
  body : Json
}.

(** What [this._rp] rejects with. *)
Inductive FetchError : Type :=
| RequestError (message : string)
| StatusCodeError (code : Z).

Definition FetchOutcome : Type := Response + FetchError.

(** Settlement state of a promise carrying a response body. *)
Inductive Promise : Type :=
| Pending
| Fulfilled (v : Json)
| Rejected (e : FetchError).

(** ** Query parameters: [_.defaults] and [querystring.encode] *)

(** An object holding string-valued parameters, in property order. *)
Definition JsObject : Type := list (string * string).

Fixpoint prop_get (o : JsObject) (k : string) : option string :=
  match o with
  | [] => None
  | (k', v) :: o' => if String.eqb k' k then Some v else prop_get o' k
  end.

(** [object[key] = value]: overwrite in place or append a new property. *)
Fixpoint prop_set (o : JsObject) (k v : string) : JsObject :=
  match o with
  | [] => [(k, v)]
  | (k', v') :: o' =>
      if String.eqb k' k then (k', v) :: o' else (k', v') :: prop_set o' k v
  end.

(** [_.defaults(object, source)]: every property of [source] whose key
    resolves to [undefined] in [object] is assigned to [object]. *)
Definition defaults (object source : JsObject) : JsObject :=
  fold_left
    (fun o kv => match prop_get o (fst kv) with
                 | None => prop_set o (fst kv) (snd kv)
                 | Some _ => o
                 end)
    source object.

Definition ROOT_URL : string := "https://psychonautwiki.org/w/api.php".

Definition qsDefaults : JsObject := [("action", "ask"); ("format", "json")]%string.

(** [querystring.escape]: bytes outside [A-Za-z0-9-_.!~*'()] become [%XX]
    with upper-case hexadecimal digits. *)
Definition noEscape (c : ascii) : bool :=
  let n := nat_of_ascii c in
  ((48 <=? n) && (n <=? 57) || (65 <=? n) && (n <=? 90)
   || (97 <=? n) && (n <=? 122)
   || existsb (Nat.eqb n) [33; 39; 40; 41; 42; 45; 46; 95; 126])%nat.

Definition hexDigit (n : nat) : ascii :=
  nth n (list_ascii_of_string "0123456789ABCDEF") "0"%char.

Fixpoint qsEscape (s : string) : string :=
  match s with
  | EmptyString => EmptyString
  | String c s' =>
      if noEscape c then String c (qsEscape s')
      else
        let n := nat_of_ascii c in
        String "%" (String (hexDigit (n / 16)) (String (hexDigit (n mod 16))
                                                  (qsEscape s')))
  end.

(** [querystring.encode(obj)]: [key=value] pairs in the order of
    [Object.keys(obj)], joined by [&]. *)
Fixpoint encode (o : JsObject) : string :=
  match o with
  | [] => ""
  | [(k, v)] => qsEscape k +:+ "=" +:+ qsEscape v
  | (k, v) :: o' => qsEscape k +:+ "=" +:+ qsEscape v +:+ "&" +:+ encode o'
  end.

(** ** BifrostCache *)

Record CacheItem : Type := mkItem { ts : Z; val : Response }.

Module BifrostCache.

Record t : Type := mk {
  _backend : gmap string CacheItem;
  _processMap : gmap string bool
}.

(** thirty minutes *)
Definition _CACHE_LIFETIME : Z := 30 * 60 * 1000.

Definition new : t := {| _backend := ∅; _processMap := ∅ |}.

(** [get(key)]: [null] is [None]; otherwise [{val, requireRefresh}]. *)
Definition get (now : Z) (c : t) (key : string) : option (Response * bool) :=
  match _backend c !! key with
  | None => None
  | Some cachedItem =>
      Some (val cachedItem, bool_decide (now - ts cachedItem > _CACHE_LIFETIME))
  end.

Definition isBeingRefreshed (c : t) (key : string) : bool :=
  bool_decide (_processMap c !! key ≠ None).

Definition markBeingRefreshed (c : t) (key : string) (flag : bool) : t :=
  if flag
  then {| _backend := _backend c; _processMap := <[key := true]> (_processMap c) |}
  else {| _backend := _backend c; _processMap := delete key (_processMap c) |}.

Definition add (now : Z) (c : t) (key : string) (v : Response) : t :=
  {| _backend := <[key := {| ts := now; val := v |}]> (_backend c);
     _processMap := _processMap c |}.

End BifrostCache.

(** ** The event loop seen from the connector *)

(** A coroutine suspended at [yield this._fetchUrl(url)] inside
    [_fetchRefreshedCacheItem]: either a [_loadUrl(url)] call on the miss
    path (whose promise is number [p]) or a [_markAndRefreshItemAsync(url)]
    call. *)
Inductive Cont : Type :=
| InLoadUrl (p : nat) (url : string)
| InMarkAndRefresh (url : string).

(** Calls that leave the connector. *)
Inductive Effect : Type :=
| NextTick (url : string)  (* process.nextTick(() => this._markAndRefreshItemAsync(url)) *)
| Request (url : string).  (* this._rp({uri: url, ...}) *)

Record World : Type := mkWorld {
  sharedBifrostCache : BifrostCache.t;
  ticks : list string;        (* registered process.nextTick callbacks, oldest first *)
  requests : list Cont;       (* outstanding requests and who awaits each *)
  loadPromises : list Promise;(* the promise of each _loadUrl call, by call number *)
  effects : list Effect       (* every outside call so far, oldest first *)
}.

Definition set_cache (f : BifrostCache.t -> BifrostCache.t) (w : World) : World :=
  mkWorld (f (sharedBifrostCache w)) (ticks w) (requests w) (loadPromises w) (effects w).

Definition set_ticks (q : list string) (w : World) : World :=
  mkWorld (sharedBifrostCache w) q (requests w) (loadPromises w) (effects w).

Definition set_requests (r : list Cont) (w : World) : World :=
  mkWorld (sharedBifrostCache w) (ticks w) r (loadPromises w) (effects w).

Definition set_loadPromises (ps : list Promise) (w : World) : World :=
  mkWorld (sharedBifrostCache w) (ticks w) (requests w) ps (effects w).

Definition emit (e : Effect) (w : World) : World :=
  mkWorld (sharedBifrostCache w) (ticks w) (requests w) (loadPromises w)
          (effects w ++ [e]).

Definition boot : World := mkWorld BifrostCache.new [] [] [] [].

(** How a run of a generator up to its next suspension ends. *)
Inductive Completion (A : Type) : Type :=
| Return (a : A)
| Throw (e : FetchError)
| Suspend.
Arguments Return {A} a.
Arguments Throw {A} e.
Arguments Suspend {A}.

Module PwConnector.

(** [_fetchUrl(url)]: the request is issued; [k] will be resumed with its
    outcome. *)
Definition _fetchUrl (url : string) (k : Cont) (w : World) : World :=
  set_requests (requests w ++ [k]) (emit (Request url) w).

(** [_fetchRefreshedCacheItem(url)] up to its [yield]. *)
Definition _fetchRefreshedCacheItem (url : string) (k : Cont) (w : World) : World :=
  _fetchUrl url k w.

(** [_fetchRefreshedCacheItem(url)] from its [yield] on: a rejection is
    thrown at the [yield]; a response is stored and returned. *)
Definition _fetchRefreshedCacheItem_resume
    (now : Z) (url : string) (r : FetchOutcome) (w : World)
  : World * (Response + FetchError) :=
  match r with
  | inl response =>
      (set_cache (fun c => BifrostCache.add now c url response) w, inl response)
  | inr err => (w, inr err)
  end.

Definition _unwindMarkAndRefreshItem (url : string) (w : World) : World :=
  let w1 := set_cache (fun c => BifrostCache.markBeingRefreshed c url true) w in
  emit (NextTick url) (set_ticks (ticks w1 ++ [url]) w1).

(** [_getCacheIfNeeded(url)] up to its first suspension. *)
Definition _getCacheIfNeeded (now : Z) (url : string) (k : Cont) (w : World)
  : World * Completion Json :=
  match BifrostCache.get now (sharedBifrostCache w) url with
  | None => (_fetchRefreshedCacheItem url k w, Suspend)
  | Some (val, requireRefresh) =>
      let w' :=
        if requireRefresh
           && negb (BifrostCache.isBeingRefreshed (sharedBifrostCache w) url)
        then _unwindMarkAndRefreshItem url w
        else w in
      (w', Return (body val))
  end.

(** [_getCacheIfNeeded(url)] resumed on the miss path. *)
Definition _getCacheIfNeeded_resume
    (now : Z) (url : string) (r : FetchOutcome) (w : World)
  : World * Completion Json :=
  match _fetchRefreshedCacheItem_resume now url r w with
  | (w', inl res) => (w', Return (body res))
  | (w', inr err) => (w', Throw err)
  end.

Definition settle (c : Completion Json) : Promise :=
  match c with
  | Return v => Fulfilled v
  | Throw e => Rejected e
  | Suspend => Pending
  end.

(** [_loadUrl(url)]: a coroutine; the call returns a new promise (its
    number is the second component).  The [catch] clause logs and
    rethrows. *)
Definition _loadUrl (now : Z) (url : string) (w : World) : World * nat :=
  let p := length (loadPromises w) in
  let '(w', c) := _getCacheIfNeeded now url (InLoadUrl p url) w in
  (set_loadPromises (loadPromises w' ++ [settle c]) w', p).

Definition _loadUrl_resume
    (now : Z) (p : nat) (url : string) (r : FetchOutcome) (w : World) : World :=
  let '(w', c) := _getCacheIfNeeded_resume now url r w in
  set_loadPromises (<[p := settle c]> (loadPromises w')) w'.

(** [_markAndRefreshItemAsync(url)] up to the [yield]. *)
Definition _markAndRefreshItemAsync (url : string) (w : World) : World :=
  _fetchRefreshedCacheItem url (InMarkAndRefresh url) w.

(** [_markAndRefreshItemAsync(url)] resumed: when the [yield*] throws, the
    coroutine ends there (its promise, which nobody holds, is rejected). *)
Definition _markAndRefreshItemAsync_resume
    (now : Z) (url : string) (r : FetchOutcome) (w : World) : World :=
  match _fetchRefreshedCacheItem_resume now url r w with
  | (w', inl _) =>
      set_cache (fun c => BifrostCache.markBeingRefreshed c url false) w'
  | (w', inr _) => w'
  end.

Definition resume (now : Z) (k : Cont) (r : FetchOutcome) (w : World) : World :=
  match k with
  | InLoadUrl p url => _loadUrl_resume now p url r w
  | InMarkAndRefresh url => _markAndRefreshItemAsync_resume now url r w
  end.

End PwConnector.

(** What can happen next, as far as the shared cache is concerned. *)
Inductive Event : Type :=
| CallLoadUrl (url : string)           (* a loader's batch calls this._loadUrl(url) *)
| RunNextTick                          (* the oldest process.nextTick callback runs *)
| Settle (i : nat) (r : FetchOutcome). (* the i-th outstanding request settles *)

(** One synchronous slice, run at clock reading [now]; [None] when the
    event is not enabled. *)
Definition step (now : Z) (ev : Event) (w : World) : option World :=
  match ev with
  | CallLoadUrl url => Some (fst (PwConnector._loadUrl now url w))
  | RunNextTick =>
      match ticks w with
      | [] => None
      | url :: rest => Some (PwConnector._markAndRefreshItemAsync url (set_ticks rest w))
      end
  | Settle i r =>
      match requests w !! i with
      | None => None
      | Some k => Some (PwConnector.resume now k r (set_requests (delete i (requests w)) w))
      end
  end.

Fixpoint run (evs : list (Z * Event)) (w : World) : option World :=
  match evs with
  | [] => Some w
  | (now, ev) :: evs' =>
      match step now ev w with
      | None => None
      | Some w' => run evs' w'
      end
  end.

Inductive reachable : World -> Prop :=
| reachable_boot : reachable boot
| reachable_step now ev w w' :
    reachable w -> step now ev w = Some w' -> reachable w'.

(** ** DataLoader, as [PwConnector]'s constructor configures it

    [new DataLoader(this.fetch.bind(this), {batch: true})]: the [cache]
    option keeps its default ([true]), so [load] memoises the promise of
    every key in [_promiseCache]; keys are queued and the queue is
    dispatched to the batch function once the current slice has ended. *)
Module DataLoader.

Record t : Type := mk {
  _promiseCache : gmap string nat;  (* key -> promise handed out for it *)
  _queue : list (string * nat)      (* {key, resolve, reject} of each queued load *)
}.

Definition new : t := {| _promiseCache := ∅; _queue := [] |}.

(** [load(key)]: the memoised promise when there is one; otherwise a
    new promise (the next number of the table [gp]) is created, queued
    and memoised. *)
Definition load (key : string) (l : t) (gp : list Promise)
  : t * list Promise * nat :=
  match _promiseCache l !! key with
  | Some cachedPromise => (l, gp, cachedPromise)
  | None =>
      let promise := length gp in
      ({| _promiseCache := <[key := promise]> (_promiseCache l);
          _queue := _queue l ++ [(key, promise)] |},
       gp ++ [Pending], promise)
  end.

(** [clear(key)] *)
Definition clear (key : string) (l : t) : t :=
  {| _promiseCache := delete key (_promiseCache l); _queue := _queue l |}.

Definition take_queue (l : t) : t :=
  {| _promiseCache := _promiseCache l; _queue := [] |}.

End DataLoader.

(** A dispatched batch: [fetch(urls)] is [Promise.all] over the
    [_loadUrl] promises; the loader settles the queued promises from it. *)
Record Batch : Type := mkBatch {
  owner : nat;                       (* the connector whose loader dispatched *)
  items : list (string * nat * nat)  (* key, queued promise, _loadUrl promise *)
}.

Record System : Type := mkSystem {
  world : World;
  heap : list JsObject;              (* objects built by callers, by address *)
  connectors : list DataLoader.t;    (* this._loader of each PwConnector instance *)
  getPromises : list Promise;        (* promises handed out by load, by number *)
  batches : list Batch               (* dispatched batches not yet settled *)
}.

Definition start : System := mkSystem boot [] [] [] [].

(** [Promise.all]: rejected as soon as one member is, fulfilled with all
    the values once every member is. *)
Fixpoint first_rejection (ps : list Promise) : option FetchError :=
  match ps with
  | [] => None
  | Rejected e :: _ => Some e
  | _ :: ps' => first_rejection ps'
  end.

Fixpoint all_values (ps : list Promise) : option (list Json) :=
  match ps with
  | [] => Some []
  | Fulfilled v :: ps' => cons v <$> all_values ps'
  | _ :: _ => None
  end.

(** State of [fetch(urls)] for a batch, read off the [_loadUrl] promises. *)
Inductive AllState : Type :=
| AllPending
| AllFulfilled (values : list Json)
| AllRejected (e : FetchError).

Definition promise_all (loads : list Promise) (b : Batch) : AllState :=
  let members := map (fun it => default Pending (loads !! it.2)) (items b) in
  match first_rejection members with
  | Some e => AllRejected e
  | None =>
      match all_values members with
      | Some values => AllFulfilled values
      | None => AllPending
      end
  end.

(** The loader's reaction to a settled batch: on success every queued
    promise is resolved with the value at its index; on failure every key
    is cleared from the memo and every queued promise rejected. *)
Definition resolve_all (its : list (string * nat * nat)) (values : list Json)
    (gp : list Promise) : list Promise :=
  fold_left (fun gp iv => <[iv.1.1.2 := Fulfilled iv.2]> gp) (zip its values) gp.

Definition failedDispatch (its : list (string * nat * nat)) (e : FetchError)
    (l : DataLoader.t) (gp : list Promise) : DataLoader.t * list Promise :=
  fold_left (fun st it => (DataLoader.clear it.1.1 st.1, <[it.1.2 := Rejected e]> st.2))
            its (l, gp).

(** Let every batch whose [Promise.all] has settled act on its loader. *)
Fixpoint settle_batches (loads : list Promise) (bs : list Batch)
    (cs : list DataLoader.t) (gp : list Promise)
  : list Batch * list DataLoader.t * list Promise :=
  match bs with
  | [] => ([], cs, gp)
  | b :: bs' =>
      match promise_all loads b with
      | AllPending =>
          let '(bs'', cs', gp') := settle_batches loads bs' cs gp in
          (b :: bs'', cs', gp')
      | AllFulfilled values =>
          settle_batches loads bs' cs (resolve_all (items b) values gp)
      | AllRejected e =>
          match cs !! owner b with
          | Some l =>
              let '(l', gp') := failedDispatch (items b) e l gp in
              settle_batches loads bs' (<[owner b := l']> cs) gp'
          | None => settle_batches loads bs' cs gp
          end
      end
  end.

Definition settled (w : World) (s : System) : System :=
  let '(bs, cs, gp) :=
    settle_batches (loadPromises w) (batches s) (connectors s) (getPromises s) in
  mkSystem w (heap s) cs gp bs.

Module Connector.

(** The cache key [get] hands to the loader. *)
Definition key_of (args : JsObject) : string :=
  ROOT_URL +:+ "?" +:+ encode (defaults args qsDefaults).

(** [get(args)] on connector [c], up to its [yield]; [args] is the
    address of the caller's object, which [_.defaults] updates in place.
    The result is the promise the generator yields (and whose value it
    returns). *)
Definition get (c args : nat) (s : System) : option (System * nat) :=
  o ← heap s !! args;
  l ← connectors s !! c;
  let merged := defaults o qsDefaults in
  let params := encode merged in
  let '(l', gp, p) :=
    DataLoader.load (ROOT_URL +:+ "?" +:+ params) l (getPromises s) in
  Some (mkSystem (world s) (<[args := merged]> (heap s))
                 (<[c := l']> (connectors s)) gp (batches s),
        p).

(** [fetch(urls)]: [urls.map(url => this._loadUrl(url))], left to right. *)
Fixpoint fetch (now : Z) (q : list (string * nat)) (w : World)
  : World * list (string * nat * nat) :=
  match q with
  | [] => (w, [])
  | (url, gp) :: q' =>
      let '(w1, lp) := PwConnector._loadUrl now url w in
      let '(w2, its) := fetch now q' w1 in
      (w2, (url, gp, lp) :: its)
  end.

(** The loader of connector [c] dispatches its queue. *)
Definition dispatch (now : Z) (c : nat) (s : System) : option System :=
  l ← connectors s !! c;
  match DataLoader._queue l with
  | [] => None
  | q =>
      let '(w', its) := fetch now q (world s) in
      Some (settled w'
              (mkSystem (world s) (heap s)
                        (<[c := DataLoader.take_queue l]> (connectors s))
                        (getPromises s)
                        (batches s ++ [mkBatch c its])))
  end.

End Connector.

Inductive SysEvent : Type :=
| NewObject (o : JsObject)          (* a caller builds a parameter object *)
| NewConnector                      (* new Connector({log}), once per request *)
| Get (c args : nat)                (* connector c runs get(args) *)
| Dispatch (c : nat)                (* the loader of connector c dispatches *)
| Loop (ev : Event).                (* RunNextTick or Settle *)

Definition sys_step (now : Z) (ev : SysEvent) (s : System) : option System :=
  match ev with
  | NewObject o =>
      Some (mkSystem (world s) (heap s ++ [o]) (connectors s) (getPromises s) (batches s))
  | NewConnector =>
      Some (mkSystem (world s) (heap s) (connectors s ++ [DataLoader.new])
                     (getPromises s) (batches s))
  | Get c args => fst <$> Connector.get c args s
  | Dispatch c => Connector.dispatch now c s
  | Loop (CallLoadUrl _) => None
  | Loop ev => (fun w' => settled w' s) <$> step now ev (world s)
  end.

Fixpoint sys_run (evs : list (Z * SysEvent)) (s : System) : option System :=
  match evs with
  | [] => Some s
  | (now, ev) :: evs' =>
      match sys_step now ev s with
      | None => None
      | Some s' => sys_run evs' s'
      end
  end.

(** ** Counting what is outstanding *)

#[global] Instance Effect_eq_dec : EqDecision Effect.
Proof. solve_decision. Defined.

#[global] Instance Cont_eq_dec : EqDecision Cont.
Proof. solve_decision. Defined.

(** Background refreshes of [url] that are scheduled or in flight. *)
Definition outstanding (url : string) (w : World) : nat :=
  (length (filter (fun u => u = url) (ticks w))
   + length (filter (fun k => k = InMarkAndRefresh url) (requests w)))%nat.

(** How many times a background refresh of [url] has been scheduled. *)
Definition scheduled (url : string) (w : World) : nat :=
  length (filter (fun e => e = NextTick url) (effects w)).

(** How many requests for [url] have been issued. *)
Definition requested (url : string) (w : World) : nat :=
  length (filter (fun e => e = Request url) (effects w)).


(** [ev] resumes a background refresh of [url]. *)
Definition completes_refresh (url : string) (ev : Event) (w : World) : bool :=
  match ev with
  | Settle i _ => bool_decide (requests w !! i = Some (InMarkAndRefresh url))
  | _ => false
  end.



(** ** The history of a cache *)

Inductive CacheOp : Type :=
| OpAdd (now : Z) (key : string) (v : Response)
| OpMark (key : string) (flag : bool).

Definition apply_op (c : BifrostCache.t) (op : CacheOp) : BifrostCache.t :=
  match op with
  | OpAdd now key v => BifrostCache.add now c key v
  | OpMark key flag => BifrostCache.markBeingRefreshed c key flag
  end.

Definition replay (ops : list CacheOp) : BifrostCache.t :=
  fold_left apply_op ops BifrostCache.new.

(** The time and value of the latest [add] of [key], if there was one. *)
Fixpoint last_stored (key : string) (ops : list CacheOp) (acc : option (Z * Response))
  : option (Z * Response) :=
  match ops with
  | [] => acc
  | OpAdd now k v :: ops' =>
      last_stored key ops' (if decide (k = key) then Some (now, v) else acc)
  | OpMark _ _ :: ops' => last_stored key ops' acc
  end.

(** What [get] answers for a key last stored as [acc]. *)
Definition answer (now : Z) (acc : option (Z * Response)) : option (Response * bool) :=
  match acc with
  | None => None
  | Some (t, v) => Some (v, bool_decide (now - t > 1800000))
  end.

(** The shapes a step can take. *)
Inductive step_spec (now : Z) (w : World) : Event -> World -> Prop :=
| step_miss url :
    BifrostCache.get now (sharedBifrostCache w) url = None ->
    step_spec now w (CallLoadUrl url)
      (mkWorld (sharedBifrostCache w) (ticks w)
               (requests w ++ [InLoadUrl (length (loadPromises w)) url])
               (loadPromises w ++ [Pending])
               (effects w ++ [Request url]))
| step_hit_schedule url v :
    BifrostCache.get now (sharedBifrostCache w) url = Some (v, true) ->
    BifrostCache.isBeingRefreshed (sharedBifrostCache w) url = false ->
    step_spec now w (CallLoadUrl url)
      (mkWorld (BifrostCache.markBeingRefreshed (sharedBifrostCache w) url true)
               (ticks w ++ [url]) (requests w)
               (loadPromises w ++ [Fulfilled (body v)])
               (effects w ++ [NextTick url]))
| step_hit_quiet url v requireRefresh :
    BifrostCache.get now (sharedBifrostCache w) url = Some (v, requireRefresh) ->
    requireRefresh && negb (BifrostCache.isBeingRefreshed (sharedBifrostCache w) url)
    = false ->
    step_spec now w (CallLoadUrl url)
      (mkWorld (sharedBifrostCache w) (ticks w) (requests w)
               (loadPromises w ++ [Fulfilled (body v)]) (effects w))
| step_tick url rest :
    ticks w = url :: rest ->
    step_spec now w RunNextTick
      (mkWorld (sharedBifrostCache w) rest (requests w ++ [InMarkAndRefresh url])
               (loadPromises w) (effects w ++ [Request url]))
| step_load_ok i p url response :
    requests w !! i = Some (InLoadUrl p url) ->
    step_spec now w (Settle i (inl response))
      (mkWorld (BifrostCache.add now (sharedBifrostCache w) url response) (ticks w)
               (delete i (requests w))
               (<[p := Fulfilled (body response)]> (loadPromises w)) (effects w))
| step_load_fail i p url err :
    requests w !! i = Some (InLoadUrl p url) ->
    step_spec now w (Settle i (inr err))
      (mkWorld (sharedBifrostCache w) (ticks w) (delete i (requests w))
               (<[p := Rejected err]> (loadPromises w)) (effects w))
| step_refresh_ok i url response :
    requests w !! i = Some (InMarkAndRefresh url) ->
    step_spec now w (Settle i (inl response))
      (mkWorld (BifrostCache.markBeingRefreshed
                  (BifrostCache.add now (sharedBifrostCache w) url response) url false)
               (ticks w) (delete i (requests w)) (loadPromises w) (effects w))
| step_refresh_fail i url err :
    requests w !! i = Some (InMarkAndRefresh url) ->
    step_spec now w (Settle i (inr err))
      (mkWorld (sharedBifrostCache w) (ticks w) (delete i (requests w))
               (loadPromises w) (effects w)).

(** The number of elements of [l] that satisfy [P]. *)
Definition count {A : Type} (P : A -> Prop) `{!forall x, Decision (P x)}
    (l : list A) : nat :=
  length (filter P l).

(** The defaults [o] lacks. *)
Definition missing (o : JsObject) : JsObject :=
  List.filter (fun kv => match prop_get o (fst kv) with None => true | Some _ => false end)
              qsDefaults.

(** ** Well-formed loader states *)

(** The promise connector [c] has memoised for key [k]. *)
Definition memo (cs : list DataLoader.t) (c : nat) (k : string) : option nat :=
  cs !! c ≫= fun l => DataLoader._promiseCache l !! k.

(** The promises waiting in queues, and those carried by dispatched
    batches. *)
Definition queued (cs : list DataLoader.t) : list nat :=
  cs ≫= fun l => (DataLoader._queue l).*2.

Definition batch_promises (b : Batch) : list nat := (fun it => it.1.2) <$> items b.

Definition batch_keys (b : Batch) : list string := (fun it => it.1.1) <$> items b.

Definition batched (bs : list Batch) : list nat := bs ≫= batch_promises.

(** Each queued or batched promise is the one memoised for its key; no
    promise waits at two places; memoised promises exist ([n] is the size
    of the promise table). *)
Record wf (cs : list DataLoader.t) (bs : list Batch) (n : nat) : Prop := mkWf {
  wf_queue : forall c l k gp,
    cs !! c = Some l -> (k, gp) ∈ DataLoader._queue l ->
    DataLoader._promiseCache l !! k = Some gp;
  wf_batch : forall b k gp lp,
    b ∈ bs -> (k, gp, lp) ∈ items b -> memo cs (owner b) k = Some gp;
  wf_nodup : NoDup (queued cs ++ batched bs);
  wf_bound : forall c k gp, memo cs c k = Some gp -> (gp < n)%nat
}.

Definition sys_wf (s : System) : Prop :=
  wf (connectors s) (batches s) (length (getPromises s)).

(** Promise [p], once memoised by connector [c] for key [k], is still
    memoised there, or has been rejected (and waits nowhere). *)
Definition kept (s : System) (c : nat) (k : string) (p : nat) : Prop :=
  memo (connectors s) c k = Some p
  \/ ((exists e, getPromises s !! p = Some (Rejected e))
      /\ (p ∉ queued (connectors s) ++ batched (batches s))
      /\ (p < length (getPromises s))%nat).

(** ** The scenario of the specification (TTL = 30 min) *)

Module Scenario.

Definition minutes (n : Z) : Z := n * 60000.

Definition x1 : Response := mkResponse 200 [] (JObj [("x"%string, JNum 1)]).
Definition x2 : Response := mkResponse 200 [] (JObj [("x"%string, JNum 2)]).

Definition argsA : JsObject := [("query", "A")]%string.
Definition keyA : string :=
  "https://psychonautwiki.org/w/api.php?query=A&action=ask&format=json".

(** t = 0: a miss, the fetch returns [{x: 1}]. *)
Definition cold : list (Z * Event) :=
  [(0, CallLoadUrl keyA); (0, Settle 0 (inl x1))].

Definition cached : World := default boot (run cold boot).

(** t = 40: three stale reads; the callback of the first one runs in
    between. *)
Definition burst : list (Z * Event) :=
  [(minutes 40, CallLoadUrl keyA); (minutes 40, CallLoadUrl keyA);
   (minutes 40, RunNextTick); (minutes 40, CallLoadUrl keyA)].

Definition refreshing : World := default boot (run burst cached).

(** The refresh fails; ten minutes later the key is read again. *)
Definition failure : list (Z * Event) :=
  [(minutes 40, Settle 0 (inr (StatusCodeError 503)));
   (minutes 50, CallLoadUrl keyA)].

Definition after_failure : World := default boot (run failure refreshing).

(** One connector (one request of the service) reads the key twice: at
    t = 0 and, after another connector has had the entry refreshed to
    [{x: 2}], at t = 41. *)
Definition replayed : list (Z * SysEvent) :=
  [(0, NewConnector); (0, NewObject argsA); (0, Get 0 0); (0, Dispatch 0);
   (0, Loop (Settle 0 (inl x1)));
   (minutes 40, NewConnector); (minutes 40, Get 1 0); (minutes 40, Dispatch 1);
   (minutes 40, Loop RunNextTick);
   (minutes 40, Loop (Settle 0 (inl x2)))].

Definition refreshed : System := default start (sys_run replayed start).

(** The same history, stopped where a connector has queued the key and
    its loader is about to dispatch: connector 0 at t = 0 (nothing
    cached), connector 1 after the first fetch (entry stored at t = 0),
    connector 2 after connector 1 has scheduled the refresh at t = 40. *)
Definition first_ask : list (Z * SysEvent) :=
  [(0, NewConnector); (0, NewObject argsA); (0, Get 0 0)].

Definition asked : System := default start (sys_run first_ask start).






End Scenario.

(** One connector and one parameter object, before any call. *)
Definition one_connector : System :=
  mkSystem boot [Scenario.argsA] [DataLoader.new] [] [].

(** ** Further vocabulary for properties of the code *)

(** The key a suspended coroutine is fetching. *)
Definition cont_url (k : Cont) : string :=
  match k with
  | InLoadUrl _ url => url
  | InMarkAndRefresh url => url
  end.

(** [ev] is a [_loadUrl(url)] call that finds no entry. *)
Definition is_miss_read (now : Z) (url : string) (ev : Event) (w : World) : bool :=
  match ev with
  | CallLoadUrl u =>
      bool_decide (u = url)
      && match BifrostCache.get now (sharedBifrostCache w) url with
         | Some _ => false
         | None => true
         end
  | _ => false
  end.

Fixpoint miss_reads (url : string) (evs : list (Z * Event)) (w : World) : nat :=
  match evs with
  | [] => 0
  | (now, ev) :: evs' =>
      match step now ev w with
      | None => 0
      | Some w' =>
          ((if is_miss_read now url ev w then 1 else 0) + miss_reads url evs' w')%nat
      end
  end.

(** [_loadUrl(url)] called once at each of the clock readings [times]. *)
Definition reads (url : string) (times : list Z) : list (Z * Event) :=
  map (fun t => (t, CallLoadUrl url)) times.

(** How often the character [c] occurs in [s]. *)
Fixpoint occurrences (c : ascii) (s : string) : nat :=
  match s with
  | EmptyString => 0
  | String c' s' => ((if Ascii.eqb c' c then 1 else 0) + occurrences c s')%nat
  end.

(** A left inverse of [qsEscape], used to show that escaping loses
    nothing (the connector itself never decodes). *)
Definition hexVal (c : ascii) : nat :=
  let n := nat_of_ascii c in
  (if (65 <=? n) then n - 55 else n - 48)%nat.


(** No dispatched batch of [s] has settled. *)
Definition all_pending (s : System) : Prop :=
  forall b, b ∈ batches s -> promise_all (loadPromises (world s)) b = AllPending.

(** The promise a suspended coroutine will settle: [_loadUrl]'s own; the
    promise of [_markAndRefreshItemAsync] is held by nobody. *)
Definition cont_promise (k : Cont) : option nat :=
  match k with
  | InLoadUrl p _ => Some p
  | InMarkAndRefresh _ => None
  end.

(** The requests in flight on whose outcome promise [p] waits. *)
Definition in_flight (p : nat) (w : World) : nat :=
  count (fun k => cont_promise k = Some p) (requests w).

Definition is_pending (st : option Promise) : bool :=
  match st with
  | Some Pending => true
  | _ => false
  end.



(** ** A request that asks for two keys in one slice *)

Module TwoKeys.

Definition argsB : JsObject := [("query", "B")]%string.
Definition keyB : string :=
  "https://psychonautwiki.org/w/api.php?query=B&action=ask&format=json".
Definition xB : Response := mkResponse 200 [] (JObj [("y"%string, JNum 7)]).

(** Connector 0 has had the key of [argsA] cached at t = 0.  At t = 10
    connector 1 asks for that key (a fresh hit) and for the key of
    [argsB] (a miss) in one slice; its loader dispatches both in one
    batch, which waits for the request of the second. *)
Definition asks : list (Z * SysEvent) :=
  [(0, NewConnector); (0, NewObject Scenario.argsA); (0, Get 0 0); (0, Dispatch 0);
   (0, Loop (Settle 0 (inl Scenario.x1)));
   (Scenario.minutes 10, NewConnector); (Scenario.minutes 10, NewObject argsB);
   (Scenario.minutes 10, Get 1 0); (Scenario.minutes 10, Get 1 1);
   (Scenario.minutes 10, Dispatch 1)].

Definition waiting : System := default start (sys_run asks start).

Definition batch : Batch :=
  mkBatch 1 [(Scenario.keyA, 1, 1); (keyB, 2, 2)]%nat.

(** The request of the second key is answered a minute later. *)
Definition answered : System :=
  default start
    (sys_step (Scenario.minutes 11) (Loop (Settle 0 (inl xB))) waiting).

End TwoKeys.

(** * Properties *)

(** ** BifrostCache *)

Section cache_facts.
Variables (now : Z) (c : BifrostCache.t) (key : string).

Lemma get_add_eq t v :
  BifrostCache.get now (BifrostCache.add t c key v) key
  = Some (v, bool_decide (now - t > BifrostCache._CACHE_LIFETIME)).
Proof. unfold BifrostCache.get, BifrostCache.add; simpl. by rewrite lookup_insert_eq. Qed.

Lemma get_add_ne t k v :
  k ≠ key ->
  BifrostCache.get now (BifrostCache.add t c k v) key = BifrostCache.get now c key.
Proof.
  intros Hne. unfold BifrostCache.get, BifrostCache.add; simpl.
  by rewrite lookup_insert_ne.
Qed.

Lemma get_mark k flag :
  BifrostCache.get now (BifrostCache.markBeingRefreshed c k flag) key
  = BifrostCache.get now c key.
Proof. by destruct flag. Qed.

Lemma isBeingRefreshed_add t k v :
  BifrostCache.isBeingRefreshed (BifrostCache.add t c k v) key
  = BifrostCache.isBeingRefreshed c key.
Proof. reflexivity. Qed.

Lemma isBeingRefreshed_mark_eq flag :
  BifrostCache.isBeingRefreshed (BifrostCache.markBeingRefreshed c key flag) key = flag.
Proof.
  unfold BifrostCache.isBeingRefreshed. destruct flag; simpl.
  - rewrite lookup_insert_eq. by apply bool_decide_eq_true.
  - rewrite lookup_delete_eq. apply bool_decide_eq_false. tauto.
Qed.

Lemma isBeingRefreshed_mark_ne k flag :
  k ≠ key ->
  BifrostCache.isBeingRefreshed (BifrostCache.markBeingRefreshed c k flag) key
  = BifrostCache.isBeingRefreshed c key.
Proof.
  intros Hne. unfold BifrostCache.isBeingRefreshed. destruct flag; simpl.
  - by rewrite lookup_insert_ne.
  - by rewrite lookup_delete_ne.
Qed.

End cache_facts.


Lemma get_fold_ops now key ops : forall c acc,
  BifrostCache.get now c key = answer now acc ->
  BifrostCache.get now (fold_left apply_op ops c) key
  = answer now (last_stored key ops acc).
Proof.
  induction ops as [|op ops IH]; intros c acc Hc; simpl; [done|].
  destruct op as [t k v|k flag]; simpl; apply IH.
  - destruct (decide (k = key)) as [->|Hne].
    + by rewrite get_add_eq.
    + by rewrite get_add_ne.
  - by rewrite get_mark.
Qed.

(** C7. Whatever was done to a cache since it was created, [get(key)] at
    clock reading [now] is [null] exactly when [key] was never stored, and
    otherwise returns the value stored last, at time [t], with
    [requireRefresh] true exactly when [now - t] exceeds 1,800,000 ms; read
    exactly 1,800,000 ms after [t] the entry is still fresh. *)
Theorem cache_get_ttl (ops : list CacheOp) (now : Z) (key : string) :
  match last_stored key ops None with
  | None => BifrostCache.get now (replay ops) key = None
  | Some (t, v) =>
      exists requireRefresh,
        BifrostCache.get now (replay ops) key = Some (v, requireRefresh)
        /\ (requireRefresh = true <-> now - t > 1800000)
        /\ (now - t = 1800000 -> requireRefresh = false)
  end.
Proof.
  pose proof (get_fold_ops now key ops BifrostCache.new None eq_refl) as H.
  fold (replay ops) in H.
  destruct (last_stored key ops None) as [[t v]|]; simpl in H; [|done].
  eexists; split; [exact H|]. split.
  - by rewrite bool_decide_eq_true.
  - intros Heq. apply bool_decide_eq_false. lia.
Qed.

Lemma cache_get_ttl_witness :
  exists requireRefresh,
    BifrostCache.get 1800000 (replay [OpAdd 0 "k" (mkResponse 200 [] JNull)]) "k"
    = Some (mkResponse 200 [] JNull, requireRefresh)
    /\ (requireRefresh = true <-> 1800000 - 0 > 1800000)
    /\ (1800000 - 0 = 1800000 -> requireRefresh = false).
Proof.
  exact (cache_get_ttl [OpAdd 0 "k" (mkResponse 200 [] JNull)] 1800000 "k").
Defined.

(** ** One [_loadUrl] call *)

Lemma get_lookup now c url item :
  BifrostCache._backend c !! url = Some item ->
  BifrostCache.get now c url = Some (val item, bool_decide (now - ts item > 1800000)).
Proof. intros H. unfold BifrostCache.get. by rewrite H. Qed.

Lemma get_lookup_None now c url :
  BifrostCache._backend c !! url = None -> BifrostCache.get now c url = None.
Proof. intros H. unfold BifrostCache.get. by rewrite H. Qed.

(** A hit settles the promise within the call. *)
Lemma loadUrl_hit now url w v requireRefresh :
  BifrostCache.get now (sharedBifrostCache w) url = Some (v, requireRefresh) ->
  let w' := if requireRefresh
               && negb (BifrostCache.isBeingRefreshed (sharedBifrostCache w) url)
            then PwConnector._unwindMarkAndRefreshItem url w else w in
  PwConnector._loadUrl now url w
  = (set_loadPromises (loadPromises w ++ [Fulfilled (body v)]) w',
     length (loadPromises w)).
Proof.
  intros H. unfold PwConnector._loadUrl, PwConnector._getCacheIfNeeded.
  rewrite H. simpl.
  by destruct (requireRefresh
               && negb (BifrostCache.isBeingRefreshed (sharedBifrostCache w) url)).
Qed.

Lemma loadUrl_miss now url w :
  BifrostCache.get now (sharedBifrostCache w) url = None ->
  PwConnector._loadUrl now url w
  = (mkWorld (sharedBifrostCache w) (ticks w)
             (requests w ++ [InLoadUrl (length (loadPromises w)) url])
             (loadPromises w ++ [Pending])
             (effects w ++ [Request url]),
     length (loadPromises w)).
Proof.
  intros H. unfold PwConnector._loadUrl, PwConnector._getCacheIfNeeded.
  by rewrite H.
Qed.

Lemma lookup_snoc_length {A} (l : list A) (x : A) : (l ++ [x]) !! length l = Some x.
Proof. rewrite lookup_app_r by lia. by rewrite Nat.sub_diag. Qed.

(** A [_loadUrl] call that finds a fresh entry returns its body at once,
    and nothing else happens. *)
Lemma loadUrl_fresh_hit (now : Z) (url : string) (item : CacheItem) (w : World) :
  BifrostCache._backend (sharedBifrostCache w) !! url = Some item ->
  now - ts item <= 1800000 ->
  (forall k, PwConnector._getCacheIfNeeded now url k w = (w, Return (body (val item))))
  /\ exists w' p,
      PwConnector._loadUrl now url w = (w', p)
      /\ loadPromises w' !! p = Some (Fulfilled (body (val item)))
      /\ sharedBifrostCache w' = sharedBifrostCache w
      /\ ticks w' = ticks w
      /\ requests w' = requests w
      /\ effects w' = effects w.
Proof.
  intros Hitem Hfresh.
  pose proof (get_lookup now _ _ _ Hitem) as Hget.
  rewrite bool_decide_eq_false_2 in Hget by lia.
  split.
  - intros k. unfold PwConnector._getCacheIfNeeded. by rewrite Hget.
  - rewrite (loadUrl_hit _ _ _ _ _ Hget). simpl.
    eexists _, _. split; [reflexivity|]. simpl.
    split; [apply lookup_snoc_length|done].
Qed.

(** A [_loadUrl] call that finds a stale entry whose refresh flag is set
    returns the stale body at once and schedules nothing. *)
Lemma loadUrl_stale_hit_marked (now : Z) (url : string) (item : CacheItem) (w : World) :
  BifrostCache._backend (sharedBifrostCache w) !! url = Some item ->
  now - ts item > 1800000 ->
  BifrostCache.isBeingRefreshed (sharedBifrostCache w) url = true ->
  (forall k, PwConnector._getCacheIfNeeded now url k w = (w, Return (body (val item))))
  /\ exists w' p,
      PwConnector._loadUrl now url w = (w', p)
      /\ loadPromises w' !! p = Some (Fulfilled (body (val item)))
      /\ sharedBifrostCache w' = sharedBifrostCache w
      /\ ticks w' = ticks w
      /\ requests w' = requests w
      /\ effects w' = effects w.
Proof.
  intros Hitem Hstale Hflag.
  pose proof (get_lookup now _ _ _ Hitem) as Hget.
  rewrite bool_decide_eq_true_2 in Hget by lia.
  split.
  - intros k. unfold PwConnector._getCacheIfNeeded. by rewrite Hget, Hflag.
  - rewrite (loadUrl_hit _ _ _ _ _ Hget), Hflag. simpl.
    eexists _, _. split; [reflexivity|]. simpl.
    split; [apply lookup_snoc_length|done].
Qed.

(** A [_loadUrl] call that finds a stale entry whose refresh flag is not
    set sets the flag, registers the refresh with [process.nextTick] and
    returns the stale body, all within the call; the request is issued
    when the registered callback runs. *)
Lemma loadUrl_stale_hit_unmarked (now : Z) (url : string) (item : CacheItem) (w : World) :
  BifrostCache._backend (sharedBifrostCache w) !! url = Some item ->
  now - ts item > 1800000 ->
  BifrostCache.isBeingRefreshed (sharedBifrostCache w) url = false ->
  (exists w' p,
      PwConnector._loadUrl now url w = (w', p)
      /\ loadPromises w' !! p = Some (Fulfilled (body (val item)))
      /\ BifrostCache.isBeingRefreshed (sharedBifrostCache w') url = true
      /\ BifrostCache._backend (sharedBifrostCache w')
         = BifrostCache._backend (sharedBifrostCache w)
      /\ ticks w' = ticks w ++ [url]
      /\ requests w' = requests w
      /\ effects w' = effects w ++ [NextTick url])
  /\ forall now' w2 rest,
      ticks w2 = url :: rest ->
      exists w3,
        step now' RunNextTick w2 = Some w3
        /\ ticks w3 = rest
        /\ requests w3 = requests w2 ++ [InMarkAndRefresh url]
        /\ effects w3 = effects w2 ++ [Request url]
        /\ sharedBifrostCache w3 = sharedBifrostCache w2.
Proof.
  intros Hitem Hstale Hflag. split.
  - pose proof (get_lookup now _ _ _ Hitem) as Hget.
    rewrite bool_decide_eq_true_2 in Hget by lia.
    rewrite (loadUrl_hit _ _ _ _ _ Hget), Hflag. simpl.
    eexists _, _. split; [reflexivity|]. simpl.
    split; [apply lookup_snoc_length|].
    split; [exact (isBeingRefreshed_mark_eq (sharedBifrostCache w) url true)|done].
  - intros now' w2 rest Hticks. unfold step. rewrite Hticks.
    eexists. split; [reflexivity|]. done.
Qed.

(** ** Invariants of the event loop *)

Lemma reachable_invariant (P : World -> Prop) :
  P boot ->
  (forall now ev w w', P w -> step now ev w = Some w' -> P w') ->
  forall w, reachable w -> P w.
Proof. intros Hboot Hstep w Hw. induction Hw; eauto. Qed.

Lemma reachable_run evs : forall w w',
  reachable w -> run evs w = Some w' -> reachable w'.
Proof.
  induction evs as [|[now ev] evs IH]; simpl; intros w w' Hw Hrun.
  - by inversion Hrun; subst.
  - destruct (step now ev w) as [w1|] eqn:Hstep; [|done].
    eapply IH; [|exact Hrun]. by eapply reachable_step.
Qed.


Lemma step_inv now ev w w' : step now ev w = Some w' -> step_spec now w ev w'.
Proof.
  destruct ev as [url| |i r]; simpl.
  - intros [= <-].
    destruct (BifrostCache.get now (sharedBifrostCache w) url) as [[v r]|] eqn:Hget.
    + rewrite (loadUrl_hit _ _ _ _ _ Hget). cbv zeta.
      destruct (r && negb (BifrostCache.isBeingRefreshed (sharedBifrostCache w) url))
        eqn:Hcond; simpl.
      * apply andb_true_iff in Hcond as [-> Hflag].
        apply negb_true_iff in Hflag. exact (step_hit_schedule now w url v Hget Hflag).
      * exact (step_hit_quiet now w url v r Hget Hcond).
    + rewrite (loadUrl_miss _ _ _ Hget). exact (step_miss now w url Hget).
  - destruct (ticks w) as [|url rest] eqn:Hticks; [done|].
    intros [= <-]. exact (step_tick now w url rest Hticks).
  - destruct (requests w !! i) as [k|] eqn:Hreq; [|done].
    intros [= <-]. destruct k as [p url|url], r as [response|err]; simpl.
    + exact (step_load_ok now w i p url response Hreq).
    + exact (step_load_fail now w i p url err Hreq).
    + exact (step_refresh_ok now w i url response Hreq).
    + exact (step_refresh_fail now w i url err Hreq).
Qed.

#[local] Arguments BifrostCache.markBeingRefreshed : simpl never.
#[local] Arguments BifrostCache.add : simpl never.
#[local] Arguments BifrostCache.isBeingRefreshed : simpl never.
#[local] Arguments BifrostCache.get : simpl never.

Ltac step_cases H :=
  apply step_inv in H; inversion H; subst; clear H; simpl in *.

Section counting.
Context {A : Type} (P : A -> Prop) `{!forall x, Decision (P x)}.

Lemma count_app l1 l2 : count P (l1 ++ l2) = (count P l1 + count P l2)%nat.
Proof. unfold count. by rewrite filter_app, length_app. Qed.

Lemma count_cons x l :
  count P (x :: l) = ((if decide (P x) then 1 else 0) + count P l)%nat.
Proof. unfold count. rewrite filter_cons. by destruct (decide (P x)). Qed.

Lemma count_nil : count P [] = 0%nat.
Proof. reflexivity. Qed.

Lemma count_delete l i x :
  l !! i = Some x ->
  count P l = ((if decide (P x) then 1 else 0) + count P (delete i l))%nat.
Proof.
  intros Hi. rewrite delete_take_drop.
  rewrite <- (take_drop_middle l i x Hi) at 1.
  rewrite !count_app, count_cons. lia.
Qed.
End counting.

Lemma outstanding_eq url w :
  outstanding url w
  = (count (fun u => u = url) (ticks w)
     + count (fun k => k = InMarkAndRefresh url) (requests w))%nat.
Proof. reflexivity. Qed.

(** Every suspended [_loadUrl] coroutine has its promise in the table. *)
Lemma load_promise_allocated w :
  reachable w ->
  forall i p url, requests w !! i = Some (InLoadUrl p url) ->
                  (p < length (loadPromises w))%nat.
Proof.
  intros Hw. pattern w. revert w Hw. apply reachable_invariant.
  - intros i p url H. simpl in H. by rewrite lookup_nil in H.
  - intros now ev w w' IH Hstep i p url Hreq.
    assert (Hdel : forall j, delete j (requests w) !! i = Some (InLoadUrl p url) ->
                             (p < length (loadPromises w))%nat).
    { intros j Hj. apply list_elem_of_lookup_2, list_elem_of_delete_inv in Hj.
      apply list_elem_of_lookup in Hj as [i' Hi']. eauto. }
    step_cases Hstep; rewrite ?length_app, ?length_insert; simpl; eauto with lia.
    + apply lookup_app_Some in Hreq as [Hreq|[_ Hreq]].
      * apply IH in Hreq. lia.
      * apply list_lookup_singleton_Some in Hreq as [_ [= <- _]]. lia.
    + apply IH in Hreq. lia.
    + apply IH in Hreq. lia.
    + apply lookup_app_Some in Hreq as [Hreq|[_ Hreq]]; eauto.
      by apply list_lookup_singleton_Some in Hreq as [_ ?].
Qed.

(** Single flight: a background refresh of [url] is scheduled or in flight
    at most once, and only while the flag of [url] is set. *)
Lemma single_flight_invariant w :
  reachable w ->
  forall url,
    (outstanding url w
     <= if BifrostCache.isBeingRefreshed (sharedBifrostCache w) url then 1 else 0)%nat.
Proof.
  intros Hw. pattern w. revert w Hw. apply reachable_invariant.
  - intros url. unfold outstanding. simpl. lia.
  - intros now ev w w' IH Hstep url. specialize (IH url).
    rewrite outstanding_eq in *.
    step_cases Hstep; rewrite ?count_app, ?count_cons, ?count_nil.
    + rewrite decide_False by done. lia.
    + destruct (decide (url0 = url)) as [->|Hne].
      * rewrite H0 in IH.
        rewrite (isBeingRefreshed_mark_eq (sharedBifrostCache w) url true). lia.
      * rewrite (isBeingRefreshed_mark_ne (sharedBifrostCache w) url url0 true Hne).
        lia.
    + done.
    + rewrite H, count_cons in IH.
      destruct (decide (url0 = url)) as [->|Hne].
      * rewrite decide_True by done. lia.
      * rewrite decide_False by congruence. lia.
    + rewrite (count_delete _ _ _ _ H), decide_False in IH by done.
      by rewrite isBeingRefreshed_add.
    + by rewrite (count_delete _ _ _ _ H), decide_False in IH by done.
    + rewrite (count_delete _ _ _ _ H) in IH.
      destruct (decide (url0 = url)) as [->|Hne].
      * rewrite decide_True in IH by done.
        destruct (BifrostCache.isBeingRefreshed _ url) in IH; lia.
      * rewrite decide_False in IH by congruence.
        rewrite (isBeingRefreshed_mark_ne _ url url0 false Hne).
        by rewrite isBeingRefreshed_add.
    + rewrite (count_delete _ _ _ _ H) in IH.
      destruct (decide (InMarkAndRefresh url0 = InMarkAndRefresh url)); lia.
Qed.

(** ** The miss path *)


(** ** Single flight *)

Lemma scheduled_eq url w :
  scheduled url w = count (fun e => e = NextTick url) (effects w).
Proof. reflexivity. Qed.


(** While the flag of [url] is set and no refresh of [url] is resumed, a
    step schedules no refresh of [url] and leaves the flag set. *)
Lemma flagged_step url now ev w w' :
  BifrostCache.isBeingRefreshed (sharedBifrostCache w) url = true ->
  completes_refresh url ev w = false ->
  step now ev w = Some w' ->
  scheduled url w' = scheduled url w
  /\ BifrostCache.isBeingRefreshed (sharedBifrostCache w') url = true.
Proof.
  intros Hflag Hnc Hstep. rewrite !scheduled_eq.
  step_cases Hstep; rewrite ?count_app, ?count_cons, ?count_nil,
                      ?isBeingRefreshed_add.
  - rewrite decide_False by done. split; [lia|done].
  - destruct (decide (url0 = url)) as [->|Hne]; [congruence|].
    rewrite decide_False by congruence.
    rewrite (isBeingRefreshed_mark_ne _ url url0 true Hne). split; [lia|done].
  - done.
  - rewrite decide_False by done. split; [lia|done].
  - done.
  - done.
  - apply bool_decide_eq_false in Hnc.
    assert (url0 ≠ url) as Hne by congruence.
    by rewrite (isBeingRefreshed_mark_ne _ url url0 false Hne), isBeingRefreshed_add.
  - done.
Qed.





Lemma cached_reachable : reachable Scenario.cached.
Proof. apply (reachable_run Scenario.cold boot); [apply reachable_boot|reflexivity]. Defined.


(** ** Completion of a background refresh *)

(** A refresh that succeeds stores the response and clears the flag. *)
Lemma successful_refresh_clears_flag now i url response w :
  requests w !! i = Some (InMarkAndRefresh url) ->
  exists w',
    step now (Settle i (inl response)) w = Some w'
    /\ BifrostCache.isBeingRefreshed (sharedBifrostCache w') url = false
    /\ BifrostCache.get now (sharedBifrostCache w') url = Some (response, false).
Proof.
  intros Hreq. unfold step. rewrite Hreq. eexists. split; [reflexivity|]. simpl.
  split.
  - apply isBeingRefreshed_mark_eq.
  - rewrite get_mark, get_add_eq. f_equal. f_equal.
    apply bool_decide_eq_false. unfold BifrostCache._CACHE_LIFETIME. lia.
Qed.

(** A refresh that fails ends at the [yield*]: the flag stays set although
    no refresh is scheduled or in flight any more. *)
Lemma failed_refresh_keeps_flag now i url err w w' :
  reachable w ->
  requests w !! i = Some (InMarkAndRefresh url) ->
  step now (Settle i (inr err)) w = Some w' ->
  BifrostCache.isBeingRefreshed (sharedBifrostCache w') url = true
  /\ outstanding url w' = 0%nat
  /\ sharedBifrostCache w' = sharedBifrostCache w.
Proof.
  intros Hw Hreq Hstep.
  pose proof (single_flight_invariant w Hw url) as Hinv.
  rewrite outstanding_eq in Hinv |- *.
  rewrite (count_delete _ _ _ _ Hreq), decide_True in Hinv by done.
  unfold step in Hstep. rewrite Hreq in Hstep. injection Hstep as <-. simpl.
  destruct (BifrostCache.isBeingRefreshed _ url) in Hinv |- *; [|lia].
  split; [done|]. split; [lia|done].
Qed.

(** Once a key is marked with no refresh scheduled or in flight, nothing
    ever clears the mark and no refresh of the key is scheduled again. *)
Lemma stuck_step url now ev w w' :
  BifrostCache.isBeingRefreshed (sharedBifrostCache w) url = true ->
  outstanding url w = 0%nat ->
  step now ev w = Some w' ->
  BifrostCache.isBeingRefreshed (sharedBifrostCache w') url = true
  /\ outstanding url w' = 0%nat
  /\ scheduled url w' = scheduled url w.
Proof.
  intros Hflag Hout Hstep.
  assert (completes_refresh url ev w = false) as Hc.
  { destruct ev as [| |i r]; try done. simpl. apply bool_decide_eq_false.
    intros Hreq. rewrite outstanding_eq, (count_delete _ _ _ _ Hreq) in Hout.
    rewrite decide_True in Hout by done. lia. }
  destruct (flagged_step url now ev w w' Hflag Hc Hstep) as [Hs Hf].
  split; [done|]. split; [|done].
  rewrite outstanding_eq in Hout |- *.
  step_cases Hstep; rewrite ?count_app, ?count_cons, ?count_nil.
  - rewrite decide_False by done. lia.
  - rewrite decide_False by congruence. lia.
  - done.
  - rewrite H, count_cons in Hout.
    destruct (decide (url0 = url)) as [->|Hne].
    + lia.
    + rewrite decide_False by congruence. lia.
  - rewrite (count_delete _ _ _ _ H) in Hout. lia.
  - rewrite (count_delete _ _ _ _ H) in Hout. lia.
  - rewrite (count_delete _ _ _ _ H) in Hout. lia.
  - rewrite (count_delete _ _ _ _ H) in Hout. lia.
Qed.

Lemma stuck_run url evs : forall w w',
  BifrostCache.isBeingRefreshed (sharedBifrostCache w) url = true ->
  outstanding url w = 0%nat ->
  run evs w = Some w' ->
  BifrostCache.isBeingRefreshed (sharedBifrostCache w') url = true
  /\ outstanding url w' = 0%nat
  /\ scheduled url w' = scheduled url w.
Proof.
  induction evs as [|[now ev] evs IH]; simpl; intros w w' Hflag Hout Hrun.
  - by inversion Hrun; subst.
  - destruct (step now ev w) as [w1|] eqn:Hstep; [|done].
    destruct (stuck_step url now ev w w1 Hflag Hout Hstep) as (Hf & Ho & Hs).
    destruct (IH w1 w' Hf Ho Hrun) as (Hf' & Ho' & Hs').
    split; [done|]. split; [done|congruence].
Qed.

(** After a failed background refresh of a key, whatever happens next, the
    key stays marked as being refreshed and no refresh of it is ever
    scheduled again. *)
Lemma failed_refresh_never_retried now i url err w w1 evs w' :
  reachable w ->
  requests w !! i = Some (InMarkAndRefresh url) ->
  step now (Settle i (inr err)) w = Some w1 ->
  run evs w1 = Some w' ->
  BifrostCache.isBeingRefreshed (sharedBifrostCache w') url = true
  /\ outstanding url w' = 0%nat
  /\ scheduled url w' = scheduled url w.
Proof.
  intros Hw Hreq Hstep Hrun.
  destruct (failed_refresh_keeps_flag now i url err w w1 Hw Hreq Hstep) as (Hf & Ho & _).
  destruct (stuck_run url evs w1 w' Hf Ho Hrun) as (Hf' & Ho' & Hs').
  split; [done|]. split; [done|].
  rewrite Hs'. unfold step in Hstep. rewrite Hreq in Hstep. by injection Hstep as <-.
Qed.

(** C1 (not met by the code). In the scenario, the background refresh
    scheduled at t = 40 fails.  Its flag is not removed: the key is still
    marked as being refreshed although nothing is scheduled or in flight,
    and the stale read at t = 50 returns the old body without scheduling a
    new refresh (the one refresh scheduled before the failure remains the
    only one). *)
Theorem failed_refresh_leaves_key_marked :
  BifrostCache.isBeingRefreshed (sharedBifrostCache Scenario.refreshing) Scenario.keyA
  = true
  /\ requests Scenario.refreshing = [InMarkAndRefresh Scenario.keyA]
  /\ run Scenario.failure Scenario.refreshing = Some Scenario.after_failure
  /\ BifrostCache.isBeingRefreshed (sharedBifrostCache Scenario.after_failure)
       Scenario.keyA = true
  /\ outstanding Scenario.keyA Scenario.after_failure = 0%nat
  /\ scheduled Scenario.keyA Scenario.after_failure = 1%nat
  /\ requested Scenario.keyA Scenario.after_failure = 2%nat
  /\ BifrostCache.get (Scenario.minutes 50)
       (sharedBifrostCache Scenario.after_failure) Scenario.keyA
     = Some (Scenario.x1, true)
  /\ last (loadPromises Scenario.after_failure)
     = Some (Fulfilled (body Scenario.x1)).
Proof. vm_compute. repeat split; reflexivity. Qed.

(** ** Parameters and cache keys *)

Lemma prop_get_app o1 o2 k :
  prop_get (o1 ++ o2) k
  = match prop_get o1 k with Some v => Some v | None => prop_get o2 k end.
Proof.
  induction o1 as [|[k' v'] o1 IH]; simpl; [done|].
  by destruct (String.eqb k' k).
Qed.

Lemma prop_set_absent o k v : prop_get o k = None -> prop_set o k v = o ++ [(k, v)].
Proof.
  induction o as [|[k' v'] o IH]; simpl; [done|].
  destruct (String.eqb k' k); [done|]. intros H. by rewrite IH.
Qed.


(** [_.defaults(args, qsDefaults)] keeps the properties of [args] as they
    are and appends the defaults it lacks, [action] before [format]. *)
Lemma defaults_qsDefaults o : defaults o qsDefaults = o ++ missing o.
Proof.
  unfold defaults, missing, qsDefaults. simpl.
  destruct (prop_get o "action") as [a|] eqn:Ha.
  - destruct (prop_get o "format") as [f|] eqn:Hf.
    + by rewrite app_nil_r.
    + by rewrite prop_set_absent.
  - rewrite (prop_set_absent _ _ _ Ha), prop_get_app. simpl.
    destruct (prop_get o "format") as [f|] eqn:Hf; [done|].
    rewrite prop_set_absent, <- app_assoc; [done|].
    by rewrite prop_get_app, Hf.
Qed.

(** Values given by the caller take precedence over the defaults. *)
Lemma defaults_precedence o k :
  prop_get (defaults o qsDefaults) k
  = match prop_get o k with Some v => Some v | None => prop_get qsDefaults k end.
Proof.
  rewrite defaults_qsDefaults, prop_get_app.
  destruct (prop_get o k) as [v|] eqn:Hk; [done|].
  unfold missing, qsDefaults. cbn [List.filter fst snd].
  destruct (String.eqb "action" k) eqn:Ea.
  - apply String.eqb_eq in Ea as <-. rewrite Hk. cbn [prop_get].
    by rewrite String.eqb_refl.
  - destruct (String.eqb "format" k) eqn:Ef.
    + apply String.eqb_eq in Ef as <-. rewrite Hk.
      destruct (prop_get o "action"); cbn [prop_get]; by rewrite ?Ea, String.eqb_refl.
    + destruct (prop_get o "action"), (prop_get o "format"); cbn [prop_get];
        by rewrite ?Ea, ?Ef.
Qed.

Lemma defaults_action o :
  prop_get (defaults o qsDefaults) "action"
  = Some (default "ask"%string (prop_get o "action")).
Proof. rewrite defaults_precedence. by destruct (prop_get o "action"). Qed.

Lemma defaults_format o :
  prop_get (defaults o qsDefaults) "format"
  = Some (default "json"%string (prop_get o "format")).
Proof. rewrite defaults_precedence. by destruct (prop_get o "format"). Qed.

Lemma defaults_other o k :
  k ≠ "action"%string -> k ≠ "format"%string ->
  prop_get (defaults o qsDefaults) k = prop_get o k.
Proof.
  intros Ha Hf. rewrite defaults_precedence.
  destruct (prop_get o k); [done|].
  unfold qsDefaults. cbn [prop_get].
  apply not_eq_sym, String.eqb_neq in Ha, Hf. by rewrite Ha, Hf.
Qed.

Lemma defaults_idempotent o :
  defaults (defaults o qsDefaults) qsDefaults = defaults o qsDefaults.
Proof.
  rewrite (defaults_qsDefaults (defaults o qsDefaults)).
  unfold missing. unfold qsDefaults at 3. cbn [List.filter fst].
  rewrite defaults_action, defaults_format. apply app_nil_r.
Qed.

Lemma get_unfold s c a o l :
  heap s !! a = Some o ->
  connectors s !! c = Some l ->
  Connector.get c a s
  = let '(l', gp, p) := DataLoader.load (Connector.key_of o) l (getPromises s) in
    Some (mkSystem (world s) (<[a := defaults o qsDefaults]> (heap s))
                   (<[c := l']> (connectors s)) gp (batches s), p).
Proof.
  intros Ho Hl. unfold Connector.get. rewrite Ho. cbn [mbind option_bind].
  rewrite Hl. reflexivity.
Qed.

(** Every [load] leaves the promise it returns memoised under the key. *)
Lemma load_memoises key l gp :
  DataLoader._promiseCache (DataLoader.load key l gp).1.1 !! key
  = Some (DataLoader.load key l gp).2.
Proof.
  unfold DataLoader.load.
  destruct (DataLoader._promiseCache l !! key) eqn:Hm; simpl; [done|].
  apply lookup_insert_eq.
Qed.

(** C4 (as the code has it). The key [get] hands to the loader, and so to
    the cache, is the base URL, a question mark and the query string of
    the caller's parameters, in the caller's property order, followed by
    the defaults the caller did not give ([action] before [format]);
    looked up by name, the serialised parameters are the caller's where
    the caller gave one and the default otherwise. *)
Theorem cache_key_of_parameters (s : System) (c a : nat) (o : JsObject) (l : DataLoader.t) :
  heap s !! a = Some o ->
  connectors s !! c = Some l ->
  Connector.key_of o = ROOT_URL +:+ "?" +:+ encode (o ++ missing o)
  /\ (forall k, prop_get (o ++ missing o) k
                = match prop_get o k with
                  | Some v => Some v
                  | None => prop_get qsDefaults k
                  end)
  /\ exists s' p l',
      Connector.get c a s = Some (s', p)
      /\ connectors s' !! c = Some l'
      /\ DataLoader._promiseCache l' !! Connector.key_of o = Some p.
Proof.
  intros Ho Hl. split; [|split].
  - unfold Connector.key_of. by rewrite defaults_qsDefaults.
  - intros k. rewrite <- defaults_qsDefaults. apply defaults_precedence.
  - rewrite (get_unfold s c a o l Ho Hl).
    pose proof (load_memoises (Connector.key_of o) l (getPromises s)) as Hmemo.
    destruct (DataLoader.load (Connector.key_of o) l (getPromises s)) as [[l' gp] p].
    eexists _, p, l'. split; [reflexivity|]. simpl. split; [|exact Hmemo].
    apply list_lookup_insert_eq. by eapply lookup_lt_Some.
Qed.


Lemma cache_key_of_parameters_witness :
  Connector.key_of Scenario.argsA
  = ROOT_URL +:+ "?" +:+ encode (Scenario.argsA ++ missing Scenario.argsA)
  /\ (forall k, prop_get (Scenario.argsA ++ missing Scenario.argsA) k
                = match prop_get Scenario.argsA k with
                  | Some v => Some v
                  | None => prop_get qsDefaults k
                  end)
  /\ exists s' p l',
      Connector.get 0 0 one_connector = Some (s', p)
      /\ connectors s' !! 0%nat = Some l'
      /\ DataLoader._promiseCache l' !! Connector.key_of Scenario.argsA = Some p.
Proof.
  apply (cache_key_of_parameters one_connector 0 0 Scenario.argsA DataLoader.new);
    reflexivity.
Defined.

(** C4 as stated fails: two parameter objects that hold the same values
    under the same names, written in a different order, get different
    keys. *)
Lemma key_depends_on_property_order :
  ~ (forall a1 a2 : JsObject,
        (forall k, prop_get a1 k = prop_get a2 k) ->
        Connector.key_of a1 = Connector.key_of a2).
Proof.
  intros H.
  specialize (H [("query", "A"); ("limit", "1")]%string
                [("limit", "1"); ("query", "A")]%string).
  assert (forall k, prop_get [("query", "A"); ("limit", "1")]%string k
                    = prop_get [("limit", "1"); ("query", "A")]%string k) as Heq.
  { intros k. cbn [prop_get].
    destruct (String.eqb "query" k) eqn:Eq, (String.eqb "limit" k) eqn:El; try done.
    apply String.eqb_eq in Eq, El. congruence. }
  specialize (H Heq). vm_compute in H. discriminate H.
Qed.

(** ** The caller's parameter object *)

(** C10. [get(args)] on any connector leaves the caller's object updated
    in place: afterwards the object at the same address holds [action]
    and [format] (the caller's value where there was one, the default
    otherwise), every other property is as before, and no other object is
    touched. *)
Theorem get_mutates_args (s : System) (c a : nat) (o : JsObject) (l : DataLoader.t) :
  heap s !! a = Some o ->
  connectors s !! c = Some l ->
  exists s' p,
    Connector.get c a s = Some (s', p)
    /\ heap s' !! a = Some (defaults o qsDefaults)
    /\ prop_get (defaults o qsDefaults) "action"
       = Some (default "ask"%string (prop_get o "action"))
    /\ prop_get (defaults o qsDefaults) "format"
       = Some (default "json"%string (prop_get o "format"))
    /\ (forall k, k ≠ "action"%string -> k ≠ "format"%string ->
                  prop_get (defaults o qsDefaults) k = prop_get o k)
    /\ (forall a', a' ≠ a -> heap s' !! a' = heap s !! a').
Proof.
  intros Ho Hl. rewrite (get_unfold s c a o l Ho Hl).
  destruct (DataLoader.load (Connector.key_of o) l (getPromises s)) as [[l' gp] p].
  eexists _, p. split; [reflexivity|]. cbn [heap].
  split; [apply list_lookup_insert_eq; by eapply lookup_lt_Some|].
  split; [apply defaults_action|]. split; [apply defaults_format|].
  split; [apply defaults_other|].
  intros a' Hne. by apply list_lookup_insert_ne.
Qed.

Lemma get_mutates_args_witness :
  exists s' p,
    Connector.get 0 0 one_connector = Some (s', p)
    /\ heap s' !! 0%nat = Some (defaults Scenario.argsA qsDefaults)
    /\ prop_get (defaults Scenario.argsA qsDefaults) "action"
       = Some (default "ask"%string (prop_get Scenario.argsA "action"))
    /\ prop_get (defaults Scenario.argsA qsDefaults) "format"
       = Some (default "json"%string (prop_get Scenario.argsA "format"))
    /\ (forall k, k ≠ "action"%string -> k ≠ "format"%string ->
                  prop_get (defaults Scenario.argsA qsDefaults) k
                  = prop_get Scenario.argsA k)
    /\ (forall a', a' ≠ 0%nat -> heap s' !! a' = heap one_connector !! a').
Proof.
  apply (get_mutates_args one_connector 0 0 Scenario.argsA DataLoader.new); reflexivity.
Defined.

(** ** The loader: coalescing and memoisation *)

Lemma world_settled w s : world (settled w s) = w.
Proof.
  unfold settled.
  by destruct (settle_batches _ _ _ _) as [[bs cs] gp].
Qed.

(** A [get] for a key the loader has memoised returns the memoised
    promise and does nothing else (apart from completing [args]). *)
Lemma get_memoised s c a o l p0 :
  heap s !! a = Some o ->
  connectors s !! c = Some l ->
  DataLoader._promiseCache l !! Connector.key_of o = Some p0 ->
  Connector.get c a s
  = Some (mkSystem (world s) (<[a := defaults o qsDefaults]> (heap s))
                   (connectors s) (getPromises s) (batches s), p0).
Proof.
  intros Ho Hl Hm. rewrite (get_unfold s c a o l Ho Hl).
  unfold DataLoader.load. rewrite Hm. by rewrite (list_insert_id _ _ _ Hl).
Qed.

(** A [get] for a key the loader has not memoised creates a promise,
    queues the key and memoises the promise. *)
Lemma get_not_memoised s c a o l :
  heap s !! a = Some o ->
  connectors s !! c = Some l ->
  DataLoader._promiseCache l !! Connector.key_of o = None ->
  Connector.get c a s
  = Some (mkSystem (world s) (<[a := defaults o qsDefaults]> (heap s))
            (<[c := {| DataLoader._promiseCache :=
                         <[Connector.key_of o := length (getPromises s)]>
                           (DataLoader._promiseCache l);
                       DataLoader._queue :=
                         DataLoader._queue l
                         ++ [(Connector.key_of o, length (getPromises s))] |}]>
               (connectors s))
            (getPromises s ++ [Pending]) (batches s),
          length (getPromises s)).
Proof.
  intros Ho Hl Hm. rewrite (get_unfold s c a o l Ho Hl).
  unfold DataLoader.load. by rewrite Hm.
Qed.

(** Dispatching a queue calls [_loadUrl] for each queued key. *)
Lemma dispatch_fetches now s c l :
  connectors s !! c = Some l ->
  DataLoader._queue l ≠ [] ->
  exists s',
    Connector.dispatch now c s = Some s'
    /\ world s' = (Connector.fetch now (DataLoader._queue l) (world s)).1.
Proof.
  intros Hl Hq. unfold Connector.dispatch. rewrite Hl. cbn [mbind option_bind].
  destruct (DataLoader._queue l) as [|kp q] eqn:Hql; [done|].
  destruct (Connector.fetch now (kp :: q) (world s)) as [w' its].
  eexists. split; [reflexivity|]. apply world_settled.
Qed.

Lemma fetch_one now key p w :
  (Connector.fetch now [(key, p)] w).1 = (PwConnector._loadUrl now key w).1.
Proof. simpl. by destruct (PwConnector._loadUrl now key w). Qed.

(** C3 as stated fails.  In the scenario, connector 0 read the key at
    t = 0 and its call resolved with [{x: 1}]; by t = 41 the cache holds
    [{x: 2}], stored at t = 40 and fresh.  A [get] for the key on
    connector 0 at t = 41 returns the promise of the first call, already
    fulfilled with [{x: 1}]: nothing is queued, there is nothing to
    dispatch, and the cache, which would answer [{x: 2}], is not
    consulted. *)
Lemma replay_after_resolution :
  sys_run Scenario.replayed start = Some Scenario.refreshed
  /\ getPromises Scenario.refreshed !! 0%nat = Some (Fulfilled (body Scenario.x1))
  /\ BifrostCache.get (Scenario.minutes 41)
       (sharedBifrostCache (world Scenario.refreshed)) Scenario.keyA
     = Some (Scenario.x2, false)
  /\ exists s',
      Connector.get 0 0 Scenario.refreshed = Some (s', 0%nat)
      /\ getPromises s' !! 0%nat = Some (Fulfilled (body Scenario.x1))
      /\ world s' = world Scenario.refreshed
      /\ DataLoader._queue <$> connectors s' !! 0%nat = Some []
      /\ Connector.dispatch (Scenario.minutes 41) 0 s' = None.
Proof.
  split; [vm_compute; reflexivity|].
  split; [vm_compute; reflexivity|].
  split; [vm_compute; reflexivity|].
  eexists. split; [vm_compute; reflexivity|].
  repeat split; vm_compute; reflexivity.
Qed.

(** ** How long a memoised promise stays *)

Lemma failedDispatch_spec its e : forall l gp,
  let r := failedDispatch its e l gp in
  DataLoader._queue r.1 = DataLoader._queue l
  /\ length r.2 = length gp
  /\ (forall k, DataLoader._promiseCache r.1 !! k
                = if decide (k ∈ (fun it => it.1.1) <$> its) then None
                  else DataLoader._promiseCache l !! k)
  /\ (forall i, i ∉ (fun it => it.1.2) <$> its -> r.2 !! i = gp !! i)
  /\ (forall i, i ∈ (fun it => it.1.2) <$> its -> (i < length gp)%nat ->
                r.2 !! i = Some (Rejected e)).
Proof.
  unfold failedDispatch.
  induction its as [|[[k g] lp] its IH]; intros l gp; cbn [fold_left]; cbv zeta.
  - split; [done|]. split; [done|]. split; [|split].
    + intros k. case_decide as Hin; [|done]. by apply elem_of_nil in Hin.
    + done.
    + intros i Hi. by apply elem_of_nil in Hi.
  - destruct (IH (DataLoader.clear k l) (<[g := Rejected e]> gp))
      as (Hq & Hlen & Hmemo & Hframe & Hrej).
    cbn [fst snd] in *. rewrite length_insert in Hlen, Hrej.
    split; [done|]. split; [done|]. split; [|split].
    + intros k'. rewrite Hmemo, fmap_cons. cbn [fst snd DataLoader.clear
        DataLoader._promiseCache].
      destruct (decide (k' ∈ (fun it => it.1.1) <$> its)) as [Hin|Hnin].
      * by rewrite decide_True by (apply elem_of_cons; by right).
      * destruct (decide (k' = k)) as [->|Hne].
        -- rewrite lookup_delete_eq.
           by rewrite decide_True by (apply elem_of_cons; by left).
        -- rewrite lookup_delete_ne by done.
           rewrite decide_False; [done|].
           intros [?|?]%elem_of_cons; done.
    + intros i Hi. rewrite fmap_cons in Hi. cbn [fst snd] in Hi.
      apply not_elem_of_cons in Hi as [Hne Hi].
      rewrite (Hframe i Hi). by apply list_lookup_insert_ne.
    + intros i Hi Hlt. rewrite fmap_cons in Hi. cbn [fst snd] in Hi.
      destruct (decide (i ∈ (fun it => it.1.2) <$> its)) as [Hin|Hnin].
      * by apply Hrej.
      * apply elem_of_cons in Hi as [->|Hi]; [|done].
        rewrite (Hframe g Hnin). by apply list_lookup_insert_eq.
Qed.

Lemma resolve_all_spec its : forall values gp,
  length (resolve_all its values gp) = length gp
  /\ forall i, i ∉ (fun it => it.1.2) <$> its ->
               resolve_all its values gp !! i = gp !! i.
Proof.
  unfold resolve_all.
  induction its as [|[[k g] lp] its IH]; intros values gp; [done|].
  destruct values as [|v values]; [done|]. cbn [zip zip_with fold_left fst snd].
  destruct (IH values (<[g := Fulfilled v]> gp)) as [Hlen Hframe].
  rewrite length_insert in Hlen. split; [done|].
  intros i Hi. rewrite fmap_cons in Hi. cbn [fst snd] in Hi.
  apply not_elem_of_cons in Hi as [Hne Hi].
  rewrite (Hframe i Hi). by apply list_lookup_insert_ne.
Qed.

Lemma queued_fmap cs : queued cs = (DataLoader._queue <$> cs) ≫= fun q => q.*2.
Proof.
  unfold queued. induction cs as [|l cs IH]; [done|].
  by rewrite fmap_cons, !bind_cons, IH.
Qed.

Lemma elem_of_queued cs c l k gp :
  cs !! c = Some l -> (k, gp) ∈ DataLoader._queue l -> gp ∈ queued cs.
Proof.
  intros Hl Hin. unfold queued. apply list_elem_of_bind. exists l. split.
  - by apply (list_elem_of_fmap_2 snd _ (k, gp)).
  - by eapply list_elem_of_lookup_2.
Qed.

Lemma elem_of_batched bs b k gp lp :
  b ∈ bs -> (k, gp, lp) ∈ items b -> gp ∈ batched bs.
Proof.
  intros Hb Hin. unfold batched. apply list_elem_of_bind. exists b. split; [|done].
  by apply (list_elem_of_fmap_2 (fun it => it.1.2) _ (k, gp, lp)).
Qed.

Lemma elem_of_batch_keys b k :
  k ∈ batch_keys b -> exists gp lp, (k, gp, lp) ∈ items b.
Proof.
  intros ([[k' gp] lp] & -> & Hin)%list_elem_of_fmap. by exists gp, lp.
Qed.

Lemma memo_insert cs c0 l0 l' c k :
  cs !! c0 = Some l0 ->
  memo (<[c0 := l']> cs) c k
  = if decide (c = c0) then DataLoader._promiseCache l' !! k else memo cs c k.
Proof.
  intros Hl0. unfold memo. destruct (decide (c = c0)) as [->|Hne].
  - rewrite list_lookup_insert_eq by (by eapply lookup_lt_Some). done.
  - by rewrite list_lookup_insert_ne.
Qed.

(** What settling batches leaves alone. *)
Lemma settle_batches_frame loads bs : forall cs gp bs' cs' gp',
  settle_batches loads bs cs gp = (bs', cs', gp') ->
  DataLoader._queue <$> cs' = DataLoader._queue <$> cs
  /\ bs' `sublist_of` bs
  /\ length gp' = length gp
  /\ (forall i, i ∉ batched bs -> gp' !! i = gp !! i)
  /\ (forall c k p, memo cs' c k = Some p -> memo cs c k = Some p).
Proof.
  induction bs as [|b bs IH]; intros cs gp bs' cs' gp'; cbn [settle_batches].
  - intros [= <- <- <-]. repeat split; done.
  - assert (Hsplit : forall i, i ∉ batched (b :: bs) ->
                                (i ∉ batch_promises b) /\ (i ∉ batched bs)).
    { intros i Hi. unfold batched in Hi. rewrite bind_cons in Hi.
      by apply not_elem_of_app in Hi. }
    destruct (promise_all loads b) as [|values|e].
    + destruct (settle_batches loads bs cs gp) as [[bs1 cs1] gp1] eqn:Hrec.
      intros [= <- <- <-].
      destruct (IH _ _ _ _ _ Hrec) as (Hq & Hsub & Hlen & Hframe & Hshrink).
      split; [done|]. split; [by constructor|]. split; [done|]. split; [|done].
      intros i Hi. apply Hframe. by apply Hsplit.
    + intros Hrec.
      destruct (IH _ _ _ _ _ Hrec) as (Hq & Hsub & Hlen & Hframe & Hshrink).
      destruct (resolve_all_spec (items b) values gp) as [Hlen1 Hframe1].
      split; [done|]. split; [by constructor|]. split; [congruence|].
      split; [|done].
      intros i Hi. destruct (Hsplit i Hi) as [Hib Hibs].
      rewrite (Hframe i Hibs). by apply Hframe1.
    + destruct (cs !! owner b) as [l|] eqn:Hl.
      * pose proof (failedDispatch_spec (items b) e l gp) as Hfd.
        destruct (failedDispatch (items b) e l gp) as [l' gp1]. cbv zeta in Hfd.
        cbn [fst snd] in Hfd. destruct Hfd as (Hq1 & Hlen1 & Hmemo1 & Hframe1 & _).
        intros Hrec.
        destruct (IH _ _ _ _ _ Hrec) as (Hq & Hsub & Hlen & Hframe & Hshrink).
        split; [|split; [by constructor|split; [congruence|split]]].
        -- rewrite Hq, list_fmap_insert, Hq1. apply list_insert_id.
           by rewrite list_lookup_fmap, Hl.
        -- intros i Hi. destruct (Hsplit i Hi) as [Hib Hibs].
           rewrite (Hframe i Hibs). by apply Hframe1.
        -- intros c k p Hp. apply Hshrink in Hp.
           rewrite (memo_insert cs (owner b) l l' c k Hl) in Hp.
           destruct (decide (c = owner b)) as [->|Hne]; [|done].
           rewrite Hmemo1 in Hp. case_decide; [done|].
           unfold memo. by rewrite Hl.
      * intros Hrec.
        destruct (IH _ _ _ _ _ Hrec) as (Hq & Hsub & Hlen & Hframe & Hshrink).
        split; [done|]. split; [by constructor|]. split; [done|]. split; [|done].
        intros i Hi. apply Hframe. by apply Hsplit.
Qed.

Lemma wf_tail cs b bs n : wf cs (b :: bs) n -> wf cs bs n.
Proof.
  intros [Hq Hb Hnd Hbd]. split; [done| |..|done].
  - intros b' k gp lp Hin. apply Hb. by apply elem_of_cons; right.
  - unfold batched in Hnd. rewrite bind_cons in Hnd.
    eapply sublist_NoDup; [exact Hnd|].
    apply sublist_app; [done|]. by apply sublist_inserts_l.
Qed.

Lemma wf_length cs bs n m : n = m -> wf cs bs n -> wf cs bs m.
Proof. by intros ->. Qed.

(** A promise waits in at most one batch, and not in a queue as well. *)
Lemma wf_head_fresh cs b bs n gp :
  wf cs (b :: bs) n -> gp ∈ batch_promises b ->
  (gp ∉ queued cs) /\ (gp ∉ batched bs).
Proof.
  intros [_ _ Hnd _] Hin. unfold batched in Hnd. rewrite bind_cons in Hnd.
  apply NoDup_app in Hnd as (_ & Hdisj & Hnd).
  apply NoDup_app in Hnd as (_ & Hdisj' & _).
  split; [|by apply Hdisj'].
  intros Hq. apply (Hdisj gp Hq). apply elem_of_app. by left.
Qed.

(** Clearing the keys of a failed batch from its loader keeps the rest
    well-formed. *)
Lemma wf_failedDispatch cs b bs gp e l :
  wf cs (b :: bs) (length gp) ->
  cs !! owner b = Some l ->
  wf (<[owner b := (failedDispatch (items b) e l gp).1]> cs) bs
     (length (failedDispatch (items b) e l gp).2).
Proof.
  intros Hwf Hl.
  pose proof (failedDispatch_spec (items b) e l gp) as Hfd.
  destruct (failedDispatch (items b) e l gp) as [l' gp1]. cbv zeta in Hfd.
  cbn [fst snd] in *. destruct Hfd as (Hq1 & Hlen1 & Hmemo1 & _ & _).
  assert (Hkept : forall k g, DataLoader._promiseCache l !! k = Some g ->
                              g ∉ batch_promises b ->
                              DataLoader._promiseCache l' !! k = Some g).
  { intros k g Hg Hnot. rewrite Hmemo1. case_decide as Hk; [|done].
    destruct (elem_of_batch_keys b k Hk) as (g' & lp & Hit).
    pose proof (wf_batch _ _ _ Hwf b k g' lp ltac:(by apply elem_of_cons; left) Hit)
      as Hg'.
    unfold memo in Hg'. rewrite Hl in Hg'. cbn in Hg'.
    assert (g' = g) as -> by congruence.
    destruct Hnot.
    by apply (list_elem_of_fmap_2 (fun it => it.1.2) _ (k, g, lp)). }
  assert (Hqueued : queued (<[owner b := l']> cs) = queued cs).
  { rewrite !queued_fmap, list_fmap_insert, Hq1. f_equal. apply list_insert_id.
    by rewrite list_lookup_fmap, Hl. }
  pose proof (wf_tail _ _ _ _ Hwf) as [Hq Hb Hnd Hbd].
  split.
  - intros c lc k g Hlc Hin.
    destruct (decide (c = owner b)) as [->|Hne].
    + rewrite list_lookup_insert_eq in Hlc by (by eapply lookup_lt_Some).
      injection Hlc as <-. rewrite Hq1 in Hin.
      apply Hkept; [by eapply Hq|].
      intros Hgb. destruct (wf_head_fresh _ _ _ _ g Hwf Hgb) as [Hnq _].
      apply Hnq. by eapply elem_of_queued.
    + rewrite list_lookup_insert_ne in Hlc by done. by eapply Hq.
  - intros b' k g lp Hb' Hit.
    pose proof (Hb b' k g lp Hb' Hit) as Hg.
    rewrite (memo_insert cs (owner b) l l' _ k Hl).
    case_decide as Hown; [|done].
    unfold memo in Hg. rewrite Hown, Hl in Hg. cbn in Hg.
    apply Hkept; [done|].
    intros Hgb. destruct (wf_head_fresh _ _ _ _ g Hwf Hgb) as [_ Hnb].
    apply Hnb. by eapply elem_of_batched.
  - by rewrite Hqueued.
  - intros c k g Hg. rewrite Hlen1. apply (Hbd c k).
    rewrite (memo_insert cs (owner b) l l' c k Hl) in Hg.
    case_decide as Hown; [|done]. subst c.
    rewrite Hmemo1 in Hg. case_decide; [done|].
    unfold memo. by rewrite Hl.
Qed.

Lemma batched_cons b bs : batched (b :: bs) = batch_promises b ++ batched bs.
Proof. unfold batched. by rewrite bind_cons. Qed.

Lemma batched_sublist bs' bs :
  bs' `sublist_of` bs -> batched bs' `sublist_of` batched bs.
Proof.
  induction 1 as [|b bs1 bs2 _ IH|b bs1 bs2 _ IH]; rewrite ?batched_cons.
  - done.
  - by apply sublist_app.
  - by apply sublist_inserts_l.
Qed.

(** Settling batches keeps the loaders well-formed, and a memoised
    promise is dropped only by being rejected. *)
Lemma settle_batches_wf loads bs : forall cs gp bs' cs' gp',
  wf cs bs (length gp) ->
  settle_batches loads bs cs gp = (bs', cs', gp') ->
  wf cs' bs' (length gp')
  /\ forall c k p,
      memo cs c k = Some p ->
      memo cs' c k = Some p
      \/ (p ∈ batched bs /\ (p ∉ batched bs')
          /\ exists e, gp' !! p = Some (Rejected e)).
Proof.
  induction bs as [|b bs IH]; intros cs gp bs' cs' gp' Hwf; cbn [settle_batches].
  - intros [= <- <- <-]. split; [done|]. intros c k p Hp. by left.
  - assert (Hweak : forall p X,
      (p ∈ batched bs /\ (p ∉ batched X) /\ exists e, gp' !! p = Some (Rejected e)) ->
      p ∈ batched (b :: bs)).
    { intros p X (Hin & _ & _). rewrite batched_cons. apply elem_of_app. by right. }
    destruct (promise_all loads b) as [|values|e].
    + destruct (settle_batches loads bs cs gp) as [[bs1 cs1] gp1] eqn:Hrec.
      intros [= <- <- <-].
      destruct (IH _ _ _ _ _ (wf_tail _ _ _ _ Hwf) Hrec) as [Hwf1 Hpers].
      destruct (settle_batches_frame _ _ _ _ _ _ _ Hrec) as (Hq & Hsub & _ & _ & _).
      assert (Hmine : forall p, p ∈ batched bs -> p ∉ batch_promises b).
      { intros p Hp Hpb. by destruct (wf_head_fresh _ _ _ _ p Hwf Hpb). }
      split.
      * destruct Hwf1 as [Hq1 Hb1 Hnd1 Hbd1]. split; [done| |..|done].
        -- intros b0 k g lp [->|Hb0]%elem_of_cons Hit; [|by eapply Hb1].
           pose proof (wf_batch _ _ _ Hwf b k g lp ltac:(by apply elem_of_cons; left)
                         Hit) as Hg.
           destruct (Hpers _ _ _ Hg) as [?|(Hin & _ & _)]; [done|].
           destruct (Hmine g Hin).
           by apply (list_elem_of_fmap_2 (fun it => it.1.2) _ (k, g, lp)).
        -- rewrite !queued_fmap, Hq, <- queued_fmap, batched_cons.
           eapply sublist_NoDup; [exact (wf_nodup _ _ _ Hwf)|].
           rewrite batched_cons. apply sublist_app; [done|].
           apply sublist_app; [done|]. by apply batched_sublist.
      * intros c k p Hp. destruct (Hpers c k p Hp) as [?|(Hin & Hnin & Hrej)];
          [by left|right].
        split; [by eapply Hweak|]. split; [|done].
        rewrite batched_cons. apply not_elem_of_app. split; [by apply Hmine|done].
    + intros Hrec.
      destruct (resolve_all_spec (items b) values gp) as [Hlen1 _].
      destruct (IH _ _ _ _ _
                  (wf_length _ _ _ _ (eq_sym Hlen1) (wf_tail _ _ _ _ Hwf)) Hrec)
        as [Hwf1 Hpers].
      split; [done|].
      intros c k p Hp. destruct (Hpers c k p Hp) as [?|Hr]; [by left|right].
      split; [by eapply Hweak|]. by destruct Hr as (_ & ? & ?).
    + destruct (cs !! owner b) as [l|] eqn:Hl.
      * pose proof (wf_failedDispatch cs b bs gp e l Hwf Hl) as Hwf1.
        pose proof (failedDispatch_spec (items b) e l gp) as Hfd.
        destruct (failedDispatch (items b) e l gp) as [l' gp1]. cbv zeta in Hfd.
        cbn [fst snd] in Hfd, Hwf1. destruct Hfd as (_ & _ & Hmemo1 & _ & Hrej1).
        intros Hrec.
        destruct (IH _ _ _ _ _ Hwf1 Hrec) as [Hwf' Hpers].
        destruct (settle_batches_frame _ _ _ _ _ _ _ Hrec)
          as (_ & Hsub & _ & Hframe & _).
        split; [done|].
        intros c k p Hp.
        destruct (decide (c = owner b /\ k ∈ batch_keys b)) as [[-> Hk]|Hother].
        -- right. destruct (elem_of_batch_keys b k Hk) as (g & lp & Hit).
           pose proof (wf_batch _ _ _ Hwf b k g lp ltac:(by apply elem_of_cons; left)
                         Hit) as Hg.
           assert (g = p) as -> by congruence.
           assert (Hpb : p ∈ batch_promises b)
             by apply (list_elem_of_fmap_2 (fun it => it.1.2) _ (k, p, lp)), Hit.
           destruct (wf_head_fresh _ _ _ _ p Hwf Hpb) as [_ Hnb].
           split; [rewrite batched_cons; apply elem_of_app; by left|].
           split.
           ++ intros Hin. apply Hnb. eapply elem_of_sublist; [exact Hin|].
              by apply batched_sublist.
           ++ exists e. rewrite (Hframe p Hnb). apply Hrej1; [done|].
              by apply (wf_bound _ _ _ Hwf (owner b) k).
        -- assert (Hp1 : memo (<[owner b := l']> cs) c k = Some p).
           { rewrite (memo_insert cs (owner b) l l' c k Hl).
             case_decide as Hown; [|done]. subst c.
             rewrite Hmemo1. unfold batch_keys in Hother.
             case_decide as Hk; [by destruct Hother|].
             unfold memo in Hp. by rewrite Hl in Hp. }
           destruct (Hpers c k p Hp1) as [?|Hr]; [by left|right].
           split; [by eapply Hweak|]. by destruct Hr as (_ & ? & ?).
      * intros Hrec.
        destruct (IH _ _ _ _ _ (wf_tail _ _ _ _ Hwf) Hrec) as [Hwf1 Hpers].
        split; [done|].
        intros c k p Hp. destruct (Hpers c k p Hp) as [?|Hr]; [by left|right].
        split; [by eapply Hweak|]. by destruct Hr as (_ & ? & ?).
Qed.

Lemma queued_elem cs gp :
  gp ∈ queued cs ->
  exists c l k, cs !! c = Some l /\ (k, gp) ∈ DataLoader._queue l.
Proof.
  unfold queued. intros (l & Hin & Hl)%list_elem_of_bind.
  apply list_elem_of_lookup in Hl as [c Hc].
  apply list_elem_of_fmap in Hin as ([k g] & -> & Hin). by exists c, l, k.
Qed.

Lemma batched_elem bs gp :
  gp ∈ batched bs -> exists b k lp, b ∈ bs /\ (k, gp, lp) ∈ items b.
Proof.
  unfold batched. intros (b & Hin & Hb)%list_elem_of_bind.
  apply list_elem_of_fmap in Hin as ([[k g] lp] & -> & Hin). by exists b, k, lp.
Qed.

(** Whatever waits is below the size of the promise table. *)
Lemma wf_waiting_bound cs bs n gp :
  wf cs bs n -> gp ∈ queued cs ++ batched bs -> (gp < n)%nat.
Proof.
  intros Hwf [Hq|Hb]%elem_of_app.
  - destruct (queued_elem _ _ Hq) as (c & l & k & Hl & Hin).
    apply (wf_bound _ _ _ Hwf c k). unfold memo. rewrite Hl. cbn.
    by eapply (wf_queue _ _ _ Hwf).
  - destruct (batched_elem _ _ Hb) as (b & k & lp & Hin & Hit).
    apply (wf_bound _ _ _ Hwf (owner b) k). by eapply (wf_batch _ _ _ Hwf).
Qed.

Lemma settled_kept w s :
  sys_wf s ->
  sys_wf (settled w s)
  /\ forall c k p, kept s c k p -> kept (settled w s) c k p.
Proof.
  unfold sys_wf, settled. intros Hwf.
  destruct (settle_batches (loadPromises w) (batches s) (connectors s) (getPromises s))
    as [[bs' cs'] gp'] eqn:Hset. cbn [connectors batches getPromises].
  destruct (settle_batches_wf _ _ _ _ _ _ _ Hwf Hset) as [Hwf' Hpers].
  destruct (settle_batches_frame _ _ _ _ _ _ _ Hset) as (Hq & Hsub & Hlen & Hframe & _).
  assert (Hqueued : queued cs' = queued (connectors s))
    by (by rewrite !queued_fmap, Hq).
  split; [done|].
  intros c k p [Hm|(Hrej & Hfree & Hlt)]; unfold kept; cbn [connectors batches getPromises].
  - destruct (Hpers c k p Hm) as [?|(Hin & Hnin & Hrej)]; [by left|right].
    split; [done|]. split.
    + rewrite Hqueued. apply not_elem_of_app. split; [|done].
      intros Hpq. pose proof (wf_nodup _ _ _ Hwf) as Hnd.
      apply NoDup_app in Hnd as (_ & Hdisj & _). by apply (Hdisj p).
    + rewrite Hlen. by apply (wf_bound _ _ _ Hwf c k).
  - right. apply not_elem_of_app in Hfree as [Hfq Hfb].
    split; [by rewrite (Hframe p Hfb)|]. split; [|by rewrite Hlen].
    rewrite Hqueued. apply not_elem_of_app. split; [done|].
    intros Hin. apply Hfb. eapply elem_of_sublist; [exact Hin|].
    by apply batched_sublist.
Qed.

Lemma queued_split cs c l :
  cs !! c = Some l ->
  queued cs = queued (take c cs) ++ (DataLoader._queue l).*2 ++ queued (drop (S c) cs).
Proof.
  intros Hl. rewrite <- (take_drop_middle cs c l Hl) at 1.
  unfold queued. by rewrite bind_app, bind_cons.
Qed.

Lemma queued_insert cs c l l' :
  cs !! c = Some l ->
  queued (<[c := l']> cs)
  = queued (take c cs) ++ (DataLoader._queue l').*2 ++ queued (drop (S c) cs).
Proof.
  intros Hl. rewrite insert_take_drop by (by eapply lookup_lt_Some).
  unfold queued. by rewrite bind_app, bind_cons.
Qed.

Lemma memo_snoc_new cs c k : memo (cs ++ [DataLoader.new]) c k = memo cs c k.
Proof.
  unfold memo. destruct (decide (c < length cs)%nat) as [Hlt|Hge].
  - by rewrite lookup_app_l.
  - rewrite lookup_app_r, (lookup_ge_None_2 cs c) by lia.
    destruct (c - length cs)%nat as [|n]; [done|]. by destruct n.
Qed.

Lemma new_connector_kept s :
  sys_wf s ->
  let s' := mkSystem (world s) (heap s) (connectors s ++ [DataLoader.new])
                     (getPromises s) (batches s) in
  sys_wf s' /\ forall c k p, kept s c k p -> kept s' c k p.
Proof.
  intros [Hq Hb Hnd Hbd]. cbv zeta. unfold sys_wf, kept.
  cbn [connectors batches getPromises].
  assert (Hqueued : queued (connectors s ++ [DataLoader.new]) = queued (connectors s)).
  { unfold queued. rewrite bind_app. cbn. apply app_nil_r. }
  split.
  - split.
    + intros c l k gp [Hl|[_ Hl]]%lookup_app_Some Hin; [by eapply Hq|].
      apply list_lookup_singleton_Some in Hl as [_ <-]. by apply elem_of_nil in Hin.
    + intros b k gp lp Hin Hit. rewrite memo_snoc_new. by eapply Hb.
    + by rewrite Hqueued.
    + intros c k gp. rewrite memo_snoc_new. apply Hbd.
  - intros c k p. by rewrite memo_snoc_new, Hqueued.
Qed.

Lemma get_kept s c a s' p' :
  sys_wf s ->
  Connector.get c a s = Some (s', p') ->
  sys_wf s' /\ forall c0 k p, kept s c0 k p -> kept s' c0 k p.
Proof.
  intros Hwf Hget. unfold Connector.get in Hget.
  destruct (heap s !! a) as [o|] eqn:Ho; [|done]. cbn [mbind option_bind] in Hget.
  destruct (connectors s !! c) as [l|] eqn:Hl; [|done]. cbn [mbind option_bind] in Hget.
  fold (Connector.key_of o) in Hget. unfold DataLoader.load in Hget.
  destruct (DataLoader._promiseCache l !! Connector.key_of o) as [p0|] eqn:Hm.
  - injection Hget as <- <-. rewrite (list_insert_id _ _ _ Hl).
    split; [done|]. by intros c0 k p.
  - injection Hget as <- <-. set (n := length (getPromises s)).
    set (key := Connector.key_of o) in *.
    set (l' := {| DataLoader._promiseCache := <[key := n]> (DataLoader._promiseCache l);
                  DataLoader._queue := DataLoader._queue l ++ [(key, n)] |}).
    destruct Hwf as [Hq Hb Hnd Hbd].
    assert (Hmemo : forall c0 k,
               memo (<[c := l']> (connectors s)) c0 k
               = if decide (c0 = c /\ k = key) then Some n
                 else memo (connectors s) c0 k).
    { intros c0 k. rewrite (memo_insert _ c l l' c0 k Hl).
      destruct (decide (c0 = c)) as [->|Hne].
      - cbn [l' DataLoader._promiseCache]. destruct (decide (k = key)) as [->|Hk].
        + rewrite lookup_insert_eq. by rewrite decide_True.
        + rewrite lookup_insert_ne by done. rewrite decide_False by tauto.
          unfold memo. by rewrite Hl.
      - rewrite decide_False by tauto. done. }
    assert (Hold : forall c0 k g, memo (connectors s) c0 k = Some g ->
                                  memo (<[c := l']> (connectors s)) c0 k = Some g).
    { intros c0 k g Hg. rewrite Hmemo. case_decide as Hck; [|done].
      destruct Hck as [-> ->]. unfold memo in Hg. rewrite Hl in Hg. cbn in Hg.
      congruence. }
    assert (Hperm : queued (<[c := l']> (connectors s)) ≡ₚ n :: queued (connectors s)).
    { rewrite (queued_insert _ c l l' Hl), (queued_split _ c l Hl).
      cbn [l' DataLoader._queue]. rewrite fmap_app. cbn [fmap list_fmap snd].
      rewrite <- !app_assoc. cbn [app].
      rewrite (app_assoc (queued _) ((DataLoader._queue l).*2)
                 (n :: queued (drop (S c) (connectors s)))).
      rewrite <- Permutation_middle. by rewrite <- app_assoc. }
    assert (Hfresh : n ∉ queued (connectors s) ++ batched (batches s)).
    { intros Hin. pose proof (wf_waiting_bound _ _ _ n (mkWf _ _ _ Hq Hb Hnd Hbd) Hin).
      unfold n in *. lia. }
    unfold sys_wf, kept. cbn [connectors batches getPromises].
    rewrite length_app. cbn [length].
    split; [split|].
    + intros c0 l0 k g Hl0 Hin.
      destruct (decide (c0 = c)) as [->|Hne].
      * rewrite list_lookup_insert_eq in Hl0 by (by eapply lookup_lt_Some).
        injection Hl0 as <-. cbn [l' DataLoader._queue DataLoader._promiseCache] in *.
        apply elem_of_app in Hin as [Hin|Hin].
        -- pose proof (Hq c l k g Hl Hin) as Hg.
           rewrite lookup_insert_ne; [done|]. intros <-. congruence.
        -- apply list_elem_of_singleton in Hin as [= -> ->]. apply lookup_insert_eq.
      * rewrite list_lookup_insert_ne in Hl0 by done. by eapply Hq.
    + intros b k g lp Hin Hit. apply Hold. by eapply Hb.
    + rewrite Hperm. cbn [app]. apply NoDup_cons. by split.
    + intros c0 k g. rewrite Hmemo. case_decide as Hck.
      * intros [= <-]. fold n. lia.
      * intros Hg. apply Hbd in Hg. fold n in Hg. lia.
    + intros c0 k p [Hp|(Hrej & Hfree & Hlt)]; [left; by apply Hold|right].
      fold n in Hlt. split; [|split; [|lia]].
      * destruct Hrej as [e He]. exists e. by rewrite lookup_app_l.
      * rewrite Hperm. cbn [app]. apply not_elem_of_cons. split; [lia|done].
Qed.

Lemma fetch_items now q : forall w,
  (fun it => (it.1.1, it.1.2)) <$> (Connector.fetch now q w).2 = q.
Proof.
  induction q as [|[url gp] q IH]; intros w; cbn [Connector.fetch]; [done|].
  destruct (PwConnector._loadUrl now url w) as [w1 lp].
  specialize (IH w1). destruct (Connector.fetch now q w1) as [w2 its].
  cbn [snd fst] in *. by rewrite fmap_cons, IH.
Qed.

(** Moving the queue of a loader into a new batch. *)
Lemma dispatched_wf s c l its :
  sys_wf s ->
  connectors s !! c = Some l ->
  (fun it => (it.1.1, it.1.2)) <$> its = DataLoader._queue l ->
  let s0 := mkSystem (world s) (heap s)
                     (<[c := DataLoader.take_queue l]> (connectors s))
                     (getPromises s) (batches s ++ [mkBatch c its]) in
  sys_wf s0 /\ forall c0 k p, kept s c0 k p -> kept s0 c0 k p.
Proof.
  intros Hwf Hl Hits s0.
  assert (Hmemo : forall c0 k, memo (connectors s0) c0 k = memo (connectors s) c0 k).
  { intros c0 k. cbn [s0 connectors].
    rewrite (memo_insert _ c l _ c0 k Hl). case_decide as Hc; [|done].
    subst c0. unfold memo. by rewrite Hl. }
  assert (Hgps : batch_promises (mkBatch c its) = (DataLoader._queue l).*2).
  { unfold batch_promises. cbn [items]. rewrite <- Hits.
    rewrite <- list_fmap_compose. done. }
  assert (Hperm : queued (connectors s0) ++ batched (batches s0)
                  ≡ₚ queued (connectors s) ++ batched (batches s)).
  { cbn [s0 connectors batches].
    rewrite (queued_insert _ c l _ Hl), (queued_split _ c l Hl).
    unfold batched at 1. rewrite bind_app, bind_cons, Hgps. cbn [DataLoader.take_queue
      DataLoader._queue fmap list_fmap mbind list_bind app].
    rewrite app_nil_r. fold (batched (batches s)).
    rewrite (Permutation_app_comm ((DataLoader._queue l).*2)
               (queued (drop (S c) (connectors s)))).
    rewrite !app_assoc.
    rewrite <- (app_assoc _ ((DataLoader._queue l).*2) (batched (batches s))).
    rewrite (Permutation_app_comm ((DataLoader._queue l).*2) (batched (batches s))).
    by rewrite !app_assoc. }
  split.
  - destruct Hwf as [Hwq Hwb Hnd Hbd]. unfold sys_wf. split.
    + intros c0 l0 k g Hl0 Hin. cbn [s0 connectors] in Hl0.
      destruct (decide (c0 = c)) as [->|Hne].
      * rewrite list_lookup_insert_eq in Hl0 by (by eapply lookup_lt_Some).
        injection Hl0 as <-. by apply elem_of_nil in Hin.
      * rewrite list_lookup_insert_ne in Hl0 by done. by eapply Hwq.
    + intros b k g lp Hin Hit. rewrite Hmemo. cbn [s0 batches] in Hin.
      apply elem_of_app in Hin as [Hin|Hin]; [by eapply Hwb|].
      apply list_elem_of_singleton in Hin as ->. cbn [owner items] in *.
      unfold memo. rewrite Hl. cbn. apply (Hwq c l k g Hl).
      rewrite <- Hits.
      by apply (list_elem_of_fmap_2 (fun it => (it.1.1, it.1.2)) _ (k, g, lp)).
    + by rewrite Hperm.
    + intros c0 k g. rewrite Hmemo. apply Hbd.
  - intros c0 k p Hp. unfold kept in *. rewrite Hmemo, Hperm. exact Hp.
Qed.

Lemma dispatch_kept now c s s' :
  sys_wf s ->
  Connector.dispatch now c s = Some s' ->
  sys_wf s' /\ forall c0 k p, kept s c0 k p -> kept s' c0 k p.
Proof.
  intros Hwf Hd. unfold Connector.dispatch in Hd.
  destruct (connectors s !! c) as [l|] eqn:Hl; [|done]. cbn [mbind option_bind] in Hd.
  destruct (DataLoader._queue l) as [|kp q] eqn:Hq; [done|]. rewrite <- Hq in Hd.
  pose proof (fetch_items now (DataLoader._queue l) (world s)) as Hits.
  destruct (Connector.fetch now (DataLoader._queue l) (world s)) as [w' its].
  cbn [snd] in Hits. injection Hd as <-.
  destruct (dispatched_wf s c l its Hwf Hl Hits) as [Hwf0 Hk0].
  destruct (settled_kept w' _ Hwf0) as [Hwf' Hkept].
  split; [done|]. intros c0 k p Hp. by apply Hkept, Hk0.
Qed.

(** Every step keeps the loaders well-formed and every memoised promise
    kept. *)
Lemma sys_step_kept now ev s s' :
  sys_wf s ->
  sys_step now ev s = Some s' ->
  sys_wf s' /\ forall c k p, kept s c k p -> kept s' c k p.
Proof.
  intros Hwf Hstep. destruct ev as [o| |c a|c|ev]; cbn [sys_step] in Hstep.
  - injection Hstep as <-. split; [done|]. by intros c k p.
  - injection Hstep as <-. by apply new_connector_kept.
  - destruct (Connector.get c a s) as [[s1 p1]|] eqn:Hget; [|done].
    injection Hstep as <-. by eapply get_kept.
  - by eapply dispatch_kept.
  - destruct ev as [url| |i r]; [done| |];
      (destruct (step now _ (world s)) as [w'|]; [|done]);
      injection Hstep as <-; by apply settled_kept.
Qed.

Lemma sys_run_kept evs : forall s s',
  sys_wf s ->
  sys_run evs s = Some s' ->
  sys_wf s' /\ forall c k p, kept s c k p -> kept s' c k p.
Proof.
  induction evs as [|[now ev] evs IH]; cbn [sys_run]; intros s s' Hwf Hrun.
  - injection Hrun as <-. split; [done|]. by intros c k p.
  - destruct (sys_step now ev s) as [s1|] eqn:Hstep; [|done].
    destruct (sys_step_kept now ev s s1 Hwf Hstep) as [Hwf1 Hk1].
    destruct (IH s1 s' Hwf1 Hrun) as [Hwf' Hk'].
    split; [done|]. intros c k p Hp. by apply Hk', Hk1.
Qed.

Lemma start_wf : sys_wf start.
Proof.
  unfold sys_wf, start. cbn [connectors batches getPromises]. split.
  - intros c l k gp Hl. by destruct c.
  - intros b k gp lp Hb. by apply elem_of_nil in Hb.
  - constructor.
  - intros c k gp Hm. by destruct c.
Qed.

(** C3 (as the code has it). A [get] returns a promise of the loader of
    its connector and leaves it memoised there: a new promise, queued for
    dispatch, when the loader had none for the key; the memoised one, with
    nothing else done, when it had.  From then on -- in the same slice or
    after any further events, the promise pending or fulfilled -- every
    [get] for the same key on the same connector returns that very
    promise, hence the result of the earlier call, and does no work: no
    key is queued, the cache is not consulted, no request is issued.  This
    ends only if the promise is rejected.  The cache is consulted when a
    queue is dispatched: the dispatch makes the [_loadUrl] call. *)
Theorem memoised_get (evs0 : list (Z * SysEvent)) (s : System) (c a : nat)
    (o : JsObject) (l : DataLoader.t) :
  sys_run evs0 start = Some s ->
  heap s !! a = Some o ->
  connectors s !! c = Some l ->
  (exists s1 p,
      Connector.get c a s = Some (s1, p)
      /\ world s1 = world s
      /\ (DataLoader._promiseCache l !! Connector.key_of o = None ->
          p = length (getPromises s)
          /\ getPromises s1 = getPromises s ++ [Pending]
          /\ exists l1, connectors s1 !! c = Some l1
                        /\ DataLoader._queue l1
                           = DataLoader._queue l ++ [(Connector.key_of o, p)])
      /\ (forall p0,
            DataLoader._promiseCache l !! Connector.key_of o = Some p0 ->
            p = p0
            /\ connectors s1 = connectors s
            /\ getPromises s1 = getPromises s
            /\ batches s1 = batches s)
      /\ forall evs s2 a2 o2,
          sys_run evs s1 = Some s2 ->
          heap s2 !! a2 = Some o2 ->
          Connector.key_of o2 = Connector.key_of o ->
          (exists e, getPromises s2 !! p = Some (Rejected e))
          \/ exists s3,
              Connector.get c a2 s2 = Some (s3, p)
              /\ world s3 = world s2
              /\ connectors s3 = connectors s2
              /\ getPromises s3 = getPromises s2
              /\ batches s3 = batches s2)
  /\ (forall now p,
        DataLoader._queue l = [(Connector.key_of o, p)] ->
        exists s',
          Connector.dispatch now c s = Some s'
          /\ world s' = (PwConnector._loadUrl now (Connector.key_of o) (world s)).1).
Proof.
  intros Hrun Ho Hl.
  destruct (sys_run_kept evs0 start s start_wf Hrun) as [Hwf _].
  split.
  - destruct (Connector.get c a s) as [[s1 p]|] eqn:Hget.
    2: { rewrite (get_unfold s c a o l Ho Hl) in Hget.
         by destruct (DataLoader.load _ _ _) as [[? ?] ?]. }
    destruct (get_kept s c a s1 p Hwf Hget) as [Hwf1 _].
    pose proof Hget as Hget'. rewrite (get_unfold s c a o l Ho Hl) in Hget'.
    pose proof (load_memoises (Connector.key_of o) l (getPromises s)) as Hmemo.
    assert (Hkept : kept s1 c (Connector.key_of o) p).
    { left. destruct (DataLoader.load _ _ _) as [[l1 gp] p1].
      injection Hget' as <- <-. cbn [connectors fst snd] in *. unfold memo.
      rewrite list_lookup_insert_eq by (by eapply lookup_lt_Some). exact Hmemo. }
    exists s1, p. split; [reflexivity|].
    split; [|split; [|split]].
    + destruct (DataLoader.load _ _ _) as [[l1 gp] p1]. by injection Hget' as <- <-.
    + intros Hnone. rewrite (get_not_memoised s c a o l Ho Hl Hnone) in Hget.
      injection Hget as <- <-. cbn [getPromises connectors].
      split; [done|]. split; [done|]. eexists.
      split; [apply list_lookup_insert_eq; by eapply lookup_lt_Some | reflexivity].
    + intros p0 Hsome. rewrite (get_memoised s c a o l p0 Ho Hl Hsome) in Hget.
      by injection Hget as <- <-.
    + intros evs s2 a2 o2 Hrun2 Ho2 Hkey.
      destruct (sys_run_kept evs s1 s2 Hwf1 Hrun2) as [_ Hk].
      destruct (Hk _ _ _ Hkept) as [Hm|(Hrej & _ & _)]; [right|by left].
      unfold memo in Hm. destruct (connectors s2 !! c) as [l2|] eqn:Hl2; [|done].
      cbn in Hm. rewrite <- Hkey in Hm.
      rewrite (get_memoised s2 c a2 o2 l2 p Ho2 Hl2 Hm).
      eexists. split; [reflexivity|]. done.
  - intros now p Hq.
    destruct (dispatch_fetches now s c l Hl) as (s' & Hd & Hw); [by rewrite Hq|].
    exists s'. split; [done|]. by rewrite Hw, Hq, fetch_one.
Qed.

Lemma memoised_get_witness :
  exists s1 p,
    Connector.get 0 0 one_connector = Some (s1, p)
    /\ world s1 = world one_connector
    /\ (DataLoader._promiseCache DataLoader.new !! Connector.key_of Scenario.argsA = None ->
        p = length (getPromises one_connector)
        /\ getPromises s1 = getPromises one_connector ++ [Pending]
        /\ exists l1, connectors s1 !! 0%nat = Some l1
                      /\ DataLoader._queue l1
                         = DataLoader._queue DataLoader.new
                           ++ [(Connector.key_of Scenario.argsA, p)])
    /\ (forall p0,
          DataLoader._promiseCache DataLoader.new !! Connector.key_of Scenario.argsA
          = Some p0 ->
          p = p0
          /\ connectors s1 = connectors one_connector
          /\ getPromises s1 = getPromises one_connector
          /\ batches s1 = batches one_connector)
    /\ forall evs s2 a2 o2,
        sys_run evs s1 = Some s2 ->
        heap s2 !! a2 = Some o2 ->
        Connector.key_of o2 = Connector.key_of Scenario.argsA ->
        (exists e, getPromises s2 !! p = Some (Rejected e))
        \/ exists s3,
            Connector.get 0 a2 s2 = Some (s3, p)
            /\ world s3 = world s2
            /\ connectors s3 = connectors s2
            /\ getPromises s3 = getPromises s2
            /\ batches s3 = batches s2.
Proof.
  apply (memoised_get [(0, NewObject Scenario.argsA); (0, NewConnector)]
           one_connector 0 0 Scenario.argsA DataLoader.new); reflexivity.
Defined.

(** ** Sanity checks of the model on small inputs *)

Example qsEscape_reserved : qsEscape "a b&c=d/é" = "a%20b%26c%3Dd%2F%C3%A9"%string.
Proof. reflexivity. Qed.

Example qsEscape_unreserved : qsEscape "A-z_0.9!~*'()" = "A-z_0.9!~*'()"%string.
Proof. reflexivity. Qed.

Example key_of_argsA : Connector.key_of Scenario.argsA = Scenario.keyA.
Proof. reflexivity. Qed.

Example key_of_caller_action :
  Connector.key_of [("action", "query"); ("titles", "LSD")]%string
  = "https://psychonautwiki.org/w/api.php?action=query&titles=LSD&format=json"%string.
Proof. reflexivity. Qed.

(** The scenario of the specification, through [get] and the loader: the
    first connector misses and gets [{x: 1}]; at t = 40 a second connector
    is served the stale [{x: 1}] at once while the refresh it scheduled is
    still to run. *)
Example scenario_stale_served :
  (s ← sys_run (take 8 Scenario.replayed) start;
   Some (getPromises s, ticks (world s), requests (world s)))
  = Some ([Fulfilled (body Scenario.x1); Fulfilled (body Scenario.x1)],
          [Scenario.keyA], []).
Proof. vm_compute. reflexivity. Qed.

(** ** From [_loadUrl] to [get]: a key dispatched alone *)

Lemma promise_all_single loads b url p lp :
  items b = [(url, p, lp)] ->
  promise_all loads b
  = match default Pending (loads !! lp) with
    | Pending => AllPending
    | Fulfilled v => AllFulfilled [v]
    | Rejected e => AllRejected e
    end.
Proof.
  intros Hit. unfold promise_all. rewrite Hit. cbn.
  by destruct (default Pending (loads !! lp)).
Qed.

(** When the batch of a single key settles, the queued promise takes the
    state of the [_loadUrl] promise. *)
Lemma settle_batches_single loads bs : forall cs gp bs' cs' gp' b url p lp st,
  wf cs bs (length gp) ->
  b ∈ bs ->
  items b = [(url, p, lp)] ->
  loads !! lp = Some st ->
  st ≠ Pending ->
  settle_batches loads bs cs gp = (bs', cs', gp') ->
  gp' !! p = Some st.
Proof.
  induction bs as [|b0 bs IH]; intros cs gp bs' cs' gp' b url p lp st Hwf Hb Hit Hst Hnp.
  { by apply elem_of_nil in Hb. }
  cbn [settle_batches]. apply elem_of_cons in Hb as [<-|Hb].
  - assert (Hpb : p ∈ batch_promises b).
    { unfold batch_promises. rewrite Hit. cbn. apply elem_of_cons. by left. }
    destruct (wf_head_fresh _ _ _ _ p Hwf Hpb) as [_ Hfresh].
    pose proof (wf_batch _ _ _ Hwf b url p lp ltac:(by apply elem_of_cons; left)
                  ltac:(rewrite Hit; apply elem_of_cons; by left)) as Hmemo.
    pose proof (wf_bound _ _ _ Hwf _ _ _ Hmemo) as Hlt.
    rewrite (promise_all_single loads b url p lp Hit), Hst.
    cbn [default from_option id].
    destruct st as [|v|e]; [done|..].
    + intros Hrec.
      destruct (settle_batches_frame _ _ _ _ _ _ _ Hrec) as (_ & _ & _ & Hframe & _).
      rewrite (Hframe p Hfresh). unfold resolve_all. rewrite Hit. cbn.
      by apply list_lookup_insert_eq.
    + unfold memo in Hmemo. destruct (cs !! owner b) as [l|] eqn:Hl; [|done].
      pose proof (failedDispatch_spec (items b) e l gp) as Hfd.
      destruct (failedDispatch (items b) e l gp) as [l' gp1]. cbv zeta in Hfd.
      cbn [fst snd] in Hfd. destruct Hfd as (_ & _ & _ & _ & Hrej).
      intros Hrec.
      destruct (settle_batches_frame _ _ _ _ _ _ _ Hrec) as (_ & _ & _ & Hframe & _).
      rewrite (Hframe p Hfresh). by apply Hrej.
  - destruct (promise_all loads b0) as [|values|e].
    + destruct (settle_batches loads bs cs gp) as [[bs1 cs1] gp1] eqn:Hrec.
      intros [= <- <- <-].
      by eapply (IH _ _ _ _ _ b url p lp st (wf_tail _ _ _ _ Hwf)).
    + destruct (resolve_all_spec (items b0) values gp) as [Hlen1 _].
      intros Hrec.
      by eapply (IH _ _ _ _ _ b url p lp st
                   (wf_length _ _ _ _ (eq_sym Hlen1) (wf_tail _ _ _ _ Hwf))).
    + destruct (cs !! owner b0) as [l|] eqn:Hl.
      * pose proof (wf_failedDispatch cs b0 bs gp e l Hwf Hl) as Hwf1.
        destruct (failedDispatch (items b0) e l gp) as [l' gp1]. cbn [fst snd] in Hwf1.
        intros Hrec. by eapply (IH _ _ _ _ _ b url p lp st Hwf1).
      * intros Hrec. by eapply (IH _ _ _ _ _ b url p lp st (wf_tail _ _ _ _ Hwf)).
Qed.

Lemma settle_batches_pending loads bs : forall cs gp bs' cs' gp' b,
  b ∈ bs ->
  promise_all loads b = AllPending ->
  settle_batches loads bs cs gp = (bs', cs', gp') ->
  b ∈ bs'.
Proof.
  induction bs as [|b0 bs IH]; intros cs gp bs' cs' gp' b Hb Hpend.
  { by apply elem_of_nil in Hb. }
  cbn [settle_batches]. apply elem_of_cons in Hb as [<-|Hb].
  - rewrite Hpend. destruct (settle_batches loads bs cs gp) as [[bs1 cs1] gp1].
    intros [= <- <- <-]. apply elem_of_cons. by left.
  - destruct (promise_all loads b0) as [|values|e].
    + destruct (settle_batches loads bs cs gp) as [[bs1 cs1] gp1] eqn:Hrec.
      intros [= <- <- <-]. apply elem_of_cons. right. by eapply IH.
    + by apply IH.
    + destruct (cs !! owner b0) as [l|].
      * destruct (failedDispatch (items b0) e l gp) as [l' gp1]. by apply IH.
      * by apply IH.
Qed.

(** The promise of a [get] whose key is dispatched alone follows the
    promise of the [_loadUrl] call made for it: settled by the call, it is
    settled alike in the dispatch; left pending, its batch waits. *)
Lemma lone_dispatch now s c l url p :
  sys_wf s ->
  connectors s !! c = Some l ->
  DataLoader._queue l = [(url, p)] ->
  exists s',
    Connector.dispatch now c s = Some s'
    /\ sys_wf s'
    /\ world s' = (PwConnector._loadUrl now url (world s)).1
    /\ (forall st,
          loadPromises (world s') !! (PwConnector._loadUrl now url (world s)).2 = Some st ->
          match st with
          | Pending =>
              mkBatch c [(url, p, (PwConnector._loadUrl now url (world s)).2)]
                ∈ batches s'
          | _ => getPromises s' !! p = Some st
          end).
Proof.
  intros Hwf Hl Hq. unfold Connector.dispatch. rewrite Hl. cbn [mbind option_bind].
  rewrite Hq. cbn [Connector.fetch].
  destruct (PwConnector._loadUrl now url (world s)) as [w1 lp]. cbn [fst snd].
  set (its := [(url, p, lp)]).
  assert (Hits : (fun it => (it.1.1, it.1.2)) <$> its = DataLoader._queue l)
    by (by rewrite Hq).
  destruct (dispatched_wf s c l its Hwf Hl Hits) as [Hwf0 _]. cbv zeta in Hwf0.
  set (s0 := mkSystem _ _ _ _ _) in *.
  destruct (settled_kept w1 s0 Hwf0) as [Hwf' _].
  eexists. split; [reflexivity|]. split; [done|]. split; [apply world_settled|].
  intros st Hst. rewrite world_settled in Hst.
  assert (Hin : mkBatch c its ∈ batches s0).
  { cbn [s0 batches]. apply elem_of_app. right. apply list_elem_of_singleton. done. }
  unfold settled.
  destruct (settle_batches (loadPromises w1) (batches s0) (connectors s0)
              (getPromises s0)) as [[bs' cs'] gp'] eqn:Hset.
  cbn [batches getPromises].
  assert (Hsettled : st ≠ Pending -> gp' !! p = Some st).
  { intros Hnp.
    by eapply (settle_batches_single _ _ _ _ _ _ _ (mkBatch c its) url p lp st Hwf0 Hin). }
  destruct st as [|v|e]; [|by apply Hsettled..].
  eapply (settle_batches_pending _ _ _ _ _ _ _ _ Hin); [|exact Hset].
  rewrite (promise_all_single _ (mkBatch c its) url p lp eq_refl), Hst. done.
Qed.


Lemma fetch_reachable now q : forall w,
  reachable w -> reachable (Connector.fetch now q w).1.
Proof.
  induction q as [|[url gp] q IH]; intros w Hw; cbn [Connector.fetch]; [done|].
  assert (Hw1 : reachable (PwConnector._loadUrl now url w).1)
    by (by apply (reachable_step now (CallLoadUrl url) w)).
  destruct (PwConnector._loadUrl now url w) as [w1 lp]. specialize (IH w1 Hw1).
  by destruct (Connector.fetch now q w1) as [w2 its].
Qed.

Lemma sys_step_world_reachable now ev s s' :
  reachable (world s) -> sys_step now ev s = Some s' -> reachable (world s').
Proof.
  intros Hw Hstep. destruct ev as [o| |c a|c|ev]; cbn [sys_step] in Hstep.
  - by injection Hstep as <-.
  - by injection Hstep as <-.
  - unfold Connector.get in Hstep.
    destruct (heap s !! a); [|done]. cbn [mbind option_bind] in Hstep.
    destruct (connectors s !! c); [|done]. cbn [mbind option_bind] in Hstep.
    destruct (DataLoader.load _ _ _) as [[l' gp] p]. by injection Hstep as <-.
  - unfold Connector.dispatch in Hstep.
    destruct (connectors s !! c) as [l|]; [|done]. cbn [mbind option_bind] in Hstep.
    destruct (DataLoader._queue l) as [|kp q] eqn:Hq; [done|]. rewrite <- Hq in Hstep.
    pose proof (fetch_reachable now (DataLoader._queue l) (world s) Hw) as Hw'.
    destruct (Connector.fetch now (DataLoader._queue l) (world s)) as [w' its].
    injection Hstep as <-. by rewrite world_settled.
  - destruct ev as [url| |i r]; [done| |];
      (destruct (step now _ (world s)) as [w'|] eqn:Hs; [|done]);
      injection Hstep as <-; rewrite world_settled; by eapply reachable_step.
Qed.

Lemma sys_run_world_reachable evs : forall s s',
  reachable (world s) -> sys_run evs s = Some s' -> reachable (world s').
Proof.
  induction evs as [|[now ev] evs IH]; cbn [sys_run]; intros s s' Hw Hrun.
  - by injection Hrun as <-.
  - destruct (sys_step now ev s) as [s1|] eqn:Hstep; [|done].
    eapply IH; [|exact Hrun]. by eapply sys_step_world_reachable.
Qed.

(** A system reached from [start] is well-formed, over a reachable world. *)
Lemma sys_run_start evs s :
  sys_run evs start = Some s -> sys_wf s /\ reachable (world s).
Proof.
  intros Hrun. split.
  - by destruct (sys_run_kept evs start s start_wf Hrun).
  - apply (sys_run_world_reachable evs start s); [apply reachable_boot|done].
Qed.

(** A [get] whose key is dispatched alone and found in the cache is
    answered in the dispatch, with the body [_loadUrl] returns. *)
Lemma lone_get_hit now s c l url p v requireRefresh :
  sys_wf s ->
  connectors s !! c = Some l ->
  DataLoader._queue l = [(url, p)] ->
  BifrostCache.get now (sharedBifrostCache (world s)) url = Some (v, requireRefresh) ->
  exists s',
    Connector.dispatch now c s = Some s'
    /\ world s' = (PwConnector._loadUrl now url (world s)).1
    /\ getPromises s' !! p = Some (Fulfilled (body v)).
Proof.
  intros Hwf Hl Hq Hget.
  destruct (lone_dispatch now s c l url p Hwf Hl Hq) as (s' & Hd & _ & Hw & Hp).
  exists s'. split; [done|]. split; [done|].
  apply (Hp (Fulfilled (body v))). rewrite Hw.
  rewrite (loadUrl_hit now url (world s) v requireRefresh Hget). cbn [fst snd].
  destruct (requireRefresh && _); apply lookup_snoc_length.
Qed.


(** * The hit and miss paths of [get] *)









(** * Further properties of the code *)

(** ** The refresh tracker and the entries of a cache *)

(** X1. [markBeingRefreshed] and [isBeingRefreshed] round-trip:
    after [markBeingRefreshed(key, flag)], [isBeingRefreshed(key)] is
    [flag] and every other key answers as before; marking twice is marking
    once, and unmarking after marking gives back the unmarked cache.
    Marks and entries do not interfere: marking changes no answer of
    [get], [add] changes no answer of [isBeingRefreshed], and the two
    commute. *)
Theorem tracker_roundtrip (c : BifrostCache.t) (key : string) (flag : bool) :
  BifrostCache.isBeingRefreshed (BifrostCache.markBeingRefreshed c key flag) key = flag
  /\ (forall k, k ≠ key ->
        BifrostCache.isBeingRefreshed (BifrostCache.markBeingRefreshed c key flag) k
        = BifrostCache.isBeingRefreshed c k)
  /\ BifrostCache.markBeingRefreshed (BifrostCache.markBeingRefreshed c key flag) key flag
     = BifrostCache.markBeingRefreshed c key flag
  /\ BifrostCache.markBeingRefreshed
       (BifrostCache.markBeingRefreshed
          (BifrostCache.markBeingRefreshed c key false) key true) key false
     = BifrostCache.markBeingRefreshed c key false
  /\ (forall now k,
        BifrostCache.get now (BifrostCache.markBeingRefreshed c key flag) k
        = BifrostCache.get now c k)
  /\ (forall t k v,
        BifrostCache.isBeingRefreshed (BifrostCache.add t c k v) key
        = BifrostCache.isBeingRefreshed c key)
  /\ (forall t k v,
        BifrostCache.markBeingRefreshed (BifrostCache.add t c k v) key flag
        = BifrostCache.add t (BifrostCache.markBeingRefreshed c key flag) k v).
Proof.
  split; [apply isBeingRefreshed_mark_eq|].
  split; [intros k Hne; by apply isBeingRefreshed_mark_ne|].
  split.
  { unfold BifrostCache.markBeingRefreshed. destruct flag; cbn; f_equal.
    - apply insert_insert_eq.
    - apply delete_delete_eq. }
  split.
  { unfold BifrostCache.markBeingRefreshed. cbn. f_equal.
    by rewrite delete_insert_eq, delete_delete_eq. }
  split; [intros now k; apply get_mark|].
  split; [done|].
  intros t k v. unfold BifrostCache.markBeingRefreshed, BifrostCache.add.
  by destruct flag.
Qed.

(** A step never removes an entry. *)
Lemma step_keeps_entries now ev w w' url :
  step now ev w = Some w' ->
  is_Some (BifrostCache._backend (sharedBifrostCache w) !! url) ->
  is_Some (BifrostCache._backend (sharedBifrostCache w') !! url).
Proof.
  intros Hstep Hin. step_cases Hstep; try done.
  - unfold BifrostCache.add. cbn. apply lookup_insert_is_Some'. by right.
  - unfold BifrostCache.markBeingRefreshed, BifrostCache.add. cbn.
    apply lookup_insert_is_Some'. by right.
Qed.

(** X2. The cache never forgets a key: whatever happens after a key has
    been stored (reads, refreshes, failures, other keys being stored),
    the key still has an entry, so [get] never answers [null] for it
    again. *)
Theorem entries_never_removed (evs : list (Z * Event)) (w w' : World)
    (url : string) (now now' : Z) :
  run evs w = Some w' ->
  BifrostCache.get now (sharedBifrostCache w) url ≠ None ->
  BifrostCache.get now' (sharedBifrostCache w') url ≠ None.
Proof.
  intros Hrun Hget.
  assert (Hin : is_Some (BifrostCache._backend (sharedBifrostCache w) !! url)).
  { unfold BifrostCache.get in Hget.
    destruct (BifrostCache._backend (sharedBifrostCache w) !! url); [by eexists|done]. }
  clear Hget. revert w Hrun Hin.
  induction evs as [|[t ev] evs IH]; cbn [run]; intros w Hrun Hin.
  - injection Hrun as <-. destruct Hin as [item Hitem].
    by rewrite (get_lookup now' _ _ _ Hitem).
  - destruct (step t ev w) as [w1|] eqn:Hstep; [|done].
    apply (IH w1 Hrun). by eapply step_keeps_entries.
Qed.

Lemma entries_never_removed_witness :
  BifrostCache.get (Scenario.minutes 50)
    (sharedBifrostCache Scenario.after_failure) Scenario.keyA ≠ None.
Proof.
  apply (entries_never_removed (Scenario.burst ++ Scenario.failure)
           Scenario.cached Scenario.after_failure Scenario.keyA 0).
  - vm_compute. reflexivity.
  - vm_compute. discriminate.
Defined.

Lemma get_Some_cached now c url r :
  BifrostCache.get now c url = Some r -> is_Some (BifrostCache._backend c !! url).
Proof.
  unfold BifrostCache.get. destruct (BifrostCache._backend c !! url); [by eexists|done].
Qed.

(** X3. Only keys the cache holds are ever refreshed: in every reachable
    state, a key that is marked as being refreshed, or has a refresh
    waiting in the [process.nextTick] queue or in flight, has an entry in
    the cache (so there is a stale value to serve meanwhile, and a miss
    never finds the key marked). *)
Theorem refresh_only_for_cached_keys (w : World) (url : string) :
  reachable w ->
  BifrostCache.isBeingRefreshed (sharedBifrostCache w) url = true
  \/ url ∈ ticks w
  \/ InMarkAndRefresh url ∈ requests w ->
  is_Some (BifrostCache._backend (sharedBifrostCache w) !! url).
Proof.
  intros Hw. revert url. pattern w. revert w Hw. apply reachable_invariant.
  - intros url [Hf|[Ht|Hr]].
    + by vm_compute in Hf.
    + by apply elem_of_nil in Ht.
    + by apply elem_of_nil in Hr.
  - intros now ev w w' IH Hstep url Hcase.
    assert (Hkeep : is_Some (BifrostCache._backend (sharedBifrostCache w) !! url) ->
                    is_Some (BifrostCache._backend (sharedBifrostCache w') !! url))
      by (by apply (step_keeps_entries now ev)).
    assert (Hdel : forall i k, k ∈ delete i (requests w) -> k ∈ requests w)
      by (intros i k; apply list_elem_of_delete_inv).
    step_cases Hstep.
    + apply IH. destruct Hcase as [Hf|[Ht|Hr]]; [by left|by right; left|].
      right; right. apply elem_of_app in Hr as [Hr|Hr]; [done|].
      by apply list_elem_of_singleton in Hr.
    + destruct (decide (url0 = url)) as [->|Hne].
      * by eapply get_Some_cached.
      * apply Hkeep, IH. destruct Hcase as [Hf|[Ht|Hr]].
        -- left. by rewrite (isBeingRefreshed_mark_ne _ url url0 true Hne) in Hf.
        -- right; left. apply elem_of_app in Ht as [Ht|Ht]; [done|].
           by apply list_elem_of_singleton in Ht.
        -- by right; right.
    + by apply IH.
    + apply IH. destruct Hcase as [Hf|[Ht|Hr]]; [by left| |].
      * right; left. rewrite H. apply elem_of_cons. by right.
      * apply elem_of_app in Hr as [Hr|Hr]; [by right; right|].
        apply list_elem_of_singleton in Hr as [= <-].
        right; left. rewrite H. apply elem_of_cons. by left.
    + apply Hkeep, IH. destruct Hcase as [Hf|[Ht|Hr]]; [by left|by right; left|].
      right; right. by eapply Hdel.
    + apply IH. destruct Hcase as [Hf|[Ht|Hr]]; [by left|by right; left|].
      right; right. by eapply Hdel.
    + destruct (decide (url0 = url)) as [->|Hne].
      * apply Hkeep, IH. right; right. by eapply list_elem_of_lookup_2.
      * apply Hkeep, IH. destruct Hcase as [Hf|[Ht|Hr]]; [|by right; left|].
        -- left. by rewrite (isBeingRefreshed_mark_ne _ url url0 false Hne),
             isBeingRefreshed_add in Hf.
        -- right; right. by eapply Hdel.
    + apply IH. destruct Hcase as [Hf|[Ht|Hr]]; [by left|by right; left|].
      right; right. by eapply Hdel.
Qed.

Lemma refreshing_reachable : reachable Scenario.refreshing.
Proof.
  apply (reachable_run Scenario.burst Scenario.cached);
    [apply cached_reachable|vm_compute; reflexivity].
Defined.

Lemma refresh_only_for_cached_keys_witness :
  is_Some (BifrostCache._backend (sharedBifrostCache Scenario.refreshing)
             !! Scenario.keyA).
Proof.
  apply (refresh_only_for_cached_keys Scenario.refreshing Scenario.keyA
           refreshing_reachable).
  left. vm_compute. reflexivity.
Defined.

(** ** After a request has settled *)

(** X4. A failed background refresh switches refreshing off for its key.
    After the request of a background refresh has been rejected, whatever
    happens next, the key stays marked as being refreshed with nothing
    scheduled or in flight, no refresh of it is scheduled again, and
    every read that finds its entry stale is answered with the stale body
    at once and starts nothing. *)
Theorem failed_refresh_disables_refresh (now : Z) (i : nat) (url : string)
    (err : FetchError) (w w1 : World) (evs : list (Z * Event)) (w' : World) :
  reachable w ->
  requests w !! i = Some (InMarkAndRefresh url) ->
  step now (Settle i (inr err)) w = Some w1 ->
  run evs w1 = Some w' ->
  BifrostCache.isBeingRefreshed (sharedBifrostCache w') url = true
  /\ outstanding url w' = 0%nat
  /\ scheduled url w' = scheduled url w
  /\ forall now' item,
      BifrostCache._backend (sharedBifrostCache w') !! url = Some item ->
      now' - ts item > 1800000 ->
      exists w2 p,
        PwConnector._loadUrl now' url w' = (w2, p)
        /\ loadPromises w2 !! p = Some (Fulfilled (body (val item)))
        /\ sharedBifrostCache w2 = sharedBifrostCache w'
        /\ ticks w2 = ticks w'
        /\ requests w2 = requests w'
        /\ effects w2 = effects w'.
Proof.
  intros Hw Hreq Hstep Hrun.
  destruct (failed_refresh_never_retried now i url err w w1 evs w' Hw Hreq Hstep Hrun)
    as (Hf & Ho & Hs).
  split; [done|]. split; [done|]. split; [done|].
  intros now' item Hitem Hstale.
  by destruct (loadUrl_stale_hit_marked now' url item w' Hitem Hstale Hf) as [_ H].
Qed.

Lemma failed_refresh_disables_refresh_witness :
  BifrostCache.isBeingRefreshed (sharedBifrostCache Scenario.after_failure)
    Scenario.keyA = true
  /\ outstanding Scenario.keyA Scenario.after_failure = 0%nat
  /\ scheduled Scenario.keyA Scenario.after_failure
     = scheduled Scenario.keyA Scenario.refreshing
  /\ forall now' item,
      BifrostCache._backend (sharedBifrostCache Scenario.after_failure)
        !! Scenario.keyA = Some item ->
      now' - ts item > 1800000 ->
      exists w2 p,
        PwConnector._loadUrl now' Scenario.keyA Scenario.after_failure = (w2, p)
        /\ loadPromises w2 !! p = Some (Fulfilled (body (val item)))
        /\ sharedBifrostCache w2 = sharedBifrostCache Scenario.after_failure
        /\ ticks w2 = ticks Scenario.after_failure
        /\ requests w2 = requests Scenario.after_failure
        /\ effects w2 = effects Scenario.after_failure.
Proof.
  apply (failed_refresh_disables_refresh (Scenario.minutes 40) 0 Scenario.keyA
           (StatusCodeError 503) Scenario.refreshing
           (default boot (step (Scenario.minutes 40)
                            (Settle 0 (inr (StatusCodeError 503))) Scenario.refreshing))
           [(Scenario.minutes 50, CallLoadUrl Scenario.keyA)]
           Scenario.after_failure refreshing_reachable);
    vm_compute; reflexivity.
Defined.

Lemma settle_ok_cache now i k response w w' :
  requests w !! i = Some k ->
  step now (Settle i (inl response)) w = Some w' ->
  BifrostCache._backend (sharedBifrostCache w')
  = <[cont_url k := mkItem now response]> (BifrostCache._backend (sharedBifrostCache w))
  /\ ticks w' = ticks w /\ effects w' = effects w.
Proof.
  intros Hreq Hstep. unfold step in Hstep. rewrite Hreq in Hstep.
  injection Hstep as <-. by destruct k.
Qed.

(** X5. A response that has arrived is what readers get: once the request
    of a miss or of a background refresh has settled with a response at
    time [now], every read of the key at a clock reading up to [now] plus
    thirty minutes finds the entry fresh and returns the body of that
    response, changing nothing. *)
Theorem fetched_response_is_served (now now' : Z) (i : nat) (k : Cont)
    (response : Response) (w w' : World) :
  requests w !! i = Some k ->
  step now (Settle i (inl response)) w = Some w' ->
  now' - now <= 1800000 ->
  BifrostCache.get now' (sharedBifrostCache w') (cont_url k) = Some (response, false)
  /\ forall k', PwConnector._getCacheIfNeeded now' (cont_url k) k' w'
                = (w', Return (body response)).
Proof.
  intros Hreq Hstep Hfresh.
  destruct (settle_ok_cache now i k response w w' Hreq Hstep) as (Hb & _ & _).
  assert (Hitem : BifrostCache._backend (sharedBifrostCache w') !! cont_url k
                  = Some (mkItem now response))
    by (rewrite Hb; apply lookup_insert_eq).
  destruct (loadUrl_fresh_hit now' (cont_url k) (mkItem now response) w' Hitem Hfresh)
    as [Hgen _].
  split; [|exact Hgen].
  rewrite (get_lookup now' _ _ _ Hitem). cbn [val ts].
  by rewrite bool_decide_eq_false_2 by lia.
Qed.

Lemma fetched_response_is_served_witness :
  BifrostCache.get (Scenario.minutes 30) (sharedBifrostCache Scenario.cached)
    Scenario.keyA = Some (Scenario.x1, false)
  /\ forall k', PwConnector._getCacheIfNeeded (Scenario.minutes 30) Scenario.keyA k'
                  Scenario.cached
                = (Scenario.cached, Return (body Scenario.x1)).
Proof.
  apply (fetched_response_is_served 0 (Scenario.minutes 30) 0
           (InLoadUrl 0 Scenario.keyA) Scenario.x1
           (default boot (step 0 (CallLoadUrl Scenario.keyA) boot)) Scenario.cached).
  - vm_compute. reflexivity.
  - vm_compute. reflexivity.
  - vm_compute. discriminate.
Defined.

(** X6. A successful background refresh re-arms the key: when its request
    settles with a response the key is no longer marked, and the first
    read later than thirty minutes after that is served the refreshed
    body and schedules a new refresh (marks the key, registers the
    callback). *)
Theorem successful_refresh_rearms (now now' : Z) (i : nat) (url : string)
    (response : Response) (w w' : World) :
  requests w !! i = Some (InMarkAndRefresh url) ->
  step now (Settle i (inl response)) w = Some w' ->
  now' - now > 1800000 ->
  BifrostCache.isBeingRefreshed (sharedBifrostCache w') url = false
  /\ exists w2 p,
      PwConnector._loadUrl now' url w' = (w2, p)
      /\ loadPromises w2 !! p = Some (Fulfilled (body response))
      /\ BifrostCache.isBeingRefreshed (sharedBifrostCache w2) url = true
      /\ ticks w2 = ticks w' ++ [url]
      /\ effects w2 = effects w' ++ [NextTick url].
Proof.
  intros Hreq Hstep Hstale.
  destruct (settle_ok_cache now i _ response w w' Hreq Hstep) as (Hb & _ & _).
  cbn [cont_url] in Hb.
  assert (Hitem : BifrostCache._backend (sharedBifrostCache w') !! url
                  = Some (mkItem now response))
    by (rewrite Hb; apply lookup_insert_eq).
  assert (Hflag : BifrostCache.isBeingRefreshed (sharedBifrostCache w') url = false).
  { destruct (successful_refresh_clears_flag now i url response w Hreq)
      as (w'' & Hstep' & Hf & _).
    rewrite Hstep in Hstep'. by injection Hstep' as ->. }
  split; [done|].
  destruct (loadUrl_stale_hit_unmarked now' url (mkItem now response) w' Hitem Hstale
              Hflag) as [(w2 & p & Heq & Hp & Hf2 & _ & Ht & _ & He) _].
  by exists w2, p.
Qed.

Lemma successful_refresh_rearms_witness :
  BifrostCache.isBeingRefreshed
    (sharedBifrostCache
       (default boot (step (Scenario.minutes 40) (Settle 0 (inl Scenario.x2))
                        Scenario.refreshing))) Scenario.keyA = false.
Proof.
  apply (successful_refresh_rearms (Scenario.minutes 40) (Scenario.minutes 80) 0
           Scenario.keyA Scenario.x2 Scenario.refreshing
           (default boot (step (Scenario.minutes 40) (Settle 0 (inl Scenario.x2))
                            Scenario.refreshing))).
  - vm_compute. reflexivity.
  - vm_compute. reflexivity.
  - vm_compute. reflexivity.
Defined.

(** ** Requests issued upstream *)

Lemma requested_eq url w :
  requested url w = count (fun e => e = Request url) (effects w).
Proof. reflexivity. Qed.

(** X7. The miss path has no single flight: while a key has no entry,
    every [_loadUrl] call for it issues a request of its own (the case
    the comment in [_getCacheIfNeeded] leaves as a todo).  Reading an
    absent key [n] times before any response arrives issues [n] requests
    and leaves [n] coroutines waiting, the cache unchanged. *)
Theorem concurrent_misses_each_fetch (url : string) (times : list Z) (w : World) :
  BifrostCache._backend (sharedBifrostCache w) !! url = None ->
  exists w',
    run (reads url times) w = Some w'
    /\ requested url w' = (requested url w + length times)%nat
    /\ length (requests w') = (length (requests w) + length times)%nat
    /\ sharedBifrostCache w' = sharedBifrostCache w
    /\ ticks w' = ticks w.
Proof.
  revert w. induction times as [|t times IH]; intros w Hmiss; cbn [reads map run].
  - exists w. cbn [length]. repeat split; try done; lia.
  - unfold step. rewrite (loadUrl_miss t url w (get_lookup_None t _ _ Hmiss)).
    cbn [fst]. set (w1 := mkWorld _ _ _ _ _).
    destruct (IH w1 Hmiss) as (w' & Hrun & Hreq & Hlen & Hc & Ht).
    exists w'. split; [exact Hrun|].
    rewrite Hreq, Hlen, !requested_eq. cbn [w1 effects requests length].
    rewrite count_app, count_cons, count_nil, decide_True by done.
    rewrite length_app. cbn [length]. repeat split; try lia; done.
Qed.

Lemma concurrent_misses_each_fetch_witness :
  exists w',
    run (reads Scenario.keyA [0; 0; 1]) boot = Some w'
    /\ requested Scenario.keyA w' = (requested Scenario.keyA boot + 3)%nat
    /\ length (requests w') = (length (requests boot) + 3)%nat
    /\ sharedBifrostCache w' = sharedBifrostCache boot
    /\ ticks w' = ticks boot.
Proof.
  apply (concurrent_misses_each_fetch Scenario.keyA [0; 0; 1] boot). reflexivity.
Defined.

Lemma step_requests_accounted now ev w w' url :
  step now ev w = Some w' ->
  (requested url w' + count (fun u => u = url) (ticks w') + scheduled url w
   = requested url w + count (fun u => u = url) (ticks w)
     + (if is_miss_read now url ev w then 1 else 0) + scheduled url w')%nat.
Proof.
  intros Hstep. rewrite !requested_eq, !scheduled_eq. unfold is_miss_read.
  step_cases Hstep; rewrite ?count_app, ?count_cons, ?count_nil.
  - destruct (decide (url0 = url)) as [->|Hne].
    + rewrite bool_decide_eq_true_2, H, decide_True by done.
      rewrite decide_False by done. cbn [andb]. lia.
    + rewrite bool_decide_eq_false_2 by done.
      rewrite !decide_False by congruence. cbn [andb]. lia.
  - rewrite decide_False by done.
    destruct (decide (url0 = url)) as [->|Hne].
    + rewrite bool_decide_eq_true_2, H, decide_True by done. cbn [andb]. lia.
    + rewrite bool_decide_eq_false_2 by done.
      rewrite decide_False by congruence. cbn [andb]. lia.
  - destruct (bool_decide (url0 = url)) eqn:Hu; cbn [andb]; [|lia].
    apply bool_decide_eq_true in Hu as ->. rewrite H. lia.
  - rewrite H, count_cons. rewrite (decide_False (P := Request url0 = NextTick url))
      by done.
    destruct (decide (url0 = url)) as [->|Hne].
    + rewrite decide_True by done. lia.
    + rewrite decide_False by congruence. lia.
  - lia.
  - lia.
  - lia.
  - lia.
Qed.

(** X8. Every request is accounted for: over any run, the requests issued
    for a key are exactly its miss reads plus its scheduled refreshes
    whose callback has run.  Written without subtraction: requests issued
    plus callbacks still queued, at the end, equal those at the start
    plus the miss reads and the refreshes scheduled in between.  Fresh
    hits, stale hits and settling requests issue nothing, and no
    scheduled refresh is lost. *)
Theorem requests_accounted (evs : list (Z * Event)) (w w' : World) (url : string) :
  run evs w = Some w' ->
  (requested url w' + count (fun u => u = url) (ticks w') + scheduled url w
   = requested url w + count (fun u => u = url) (ticks w)
     + miss_reads url evs w + scheduled url w')%nat.
Proof.
  revert w. induction evs as [|[now ev] evs IH]; cbn [run miss_reads]; intros w Hrun.
  - injection Hrun as <-. lia.
  - destruct (step now ev w) as [w1|] eqn:Hstep; [|done].
    pose proof (step_requests_accounted now ev w w1 url Hstep) as H1.
    pose proof (IH w1 Hrun) as H2. lia.
Qed.

Lemma requests_accounted_witness :
  (requested Scenario.keyA Scenario.after_failure
   + count (fun u => u = Scenario.keyA) (ticks Scenario.after_failure)
   + scheduled Scenario.keyA boot
   = requested Scenario.keyA boot + count (fun u => u = Scenario.keyA) (ticks boot)
     + miss_reads Scenario.keyA (Scenario.cold ++ Scenario.burst ++ Scenario.failure) boot
     + scheduled Scenario.keyA Scenario.after_failure)%nat.
Proof.
  apply (requests_accounted (Scenario.cold ++ Scenario.burst ++ Scenario.failure)
           boot Scenario.after_failure Scenario.keyA).
  vm_compute. reflexivity.
Defined.

(** ** Batches: [fetch] and the loader *)

Lemma first_rejection_None members :
  first_rejection members = None <->
  forall j e, members !! j ≠ Some (Rejected e).
Proof.
  induction members as [|m members IH]; cbn [first_rejection].
  - split; [|done]. intros _ j e. by rewrite lookup_nil.
  - destruct m as [|v|e0].
    + rewrite IH. split.
      * intros H [|j] e; [done|]. apply H.
      * intros H j e. apply (H (S j) e).
    + rewrite IH. split.
      * intros H [|j] e; [done|]. apply H.
      * intros H j e. apply (H (S j) e).
    + split; [done|]. intros H. by destruct (H 0%nat e0).
Qed.

Lemma first_rejection_only members e0 :
  (forall j e, members !! j = Some (Rejected e) -> e = e0) ->
  (exists j e, members !! j = Some (Rejected e)) ->
  first_rejection members = Some e0.
Proof.
  intros Honly (j & e & Hj).
  destruct (first_rejection members) as [e1|] eqn:Hfr.
  - f_equal. clear j e Hj. revert Honly Hfr.
    induction members as [|m members IH]; cbn [first_rejection]; [done|].
    intros Honly Hfr. destruct m as [|v|e2].
    + apply IH; [|done]. intros j e. apply (Honly (S j) e).
    + apply IH; [|done]. intros j e. apply (Honly (S j) e).
    + injection Hfr as <-. by apply (Honly 0%nat e2).
  - pose proof (proj1 (first_rejection_None members) Hfr) as Hn.
    by destruct (Hn j e).
Qed.

Lemma all_values_lookup members values :
  all_values members = Some values ->
  forall j m, members !! j = Some m ->
              exists v, m = Fulfilled v /\ values !! j = Some v.
Proof.
  revert values. induction members as [|m0 members IH]; intros values Hall j m Hj.
  - by rewrite lookup_nil in Hj.
  - cbn [all_values] in Hall. destruct m0 as [|v0|e0]; [done| |done].
    destruct (all_values members) as [vs|] eqn:Hvs; [|done].
    cbn in Hall. injection Hall as <-.
    destruct j as [|j]; cbn in Hj |- *.
    + injection Hj as <-. by exists v0.
    + by apply (IH vs eq_refl j m).
Qed.

Lemma promise_all_cases loads b :
  match promise_all loads b with
  | AllRejected e =>
      first_rejection (map (fun it => default Pending (loads !! it.2)) (items b))
      = Some e
  | AllFulfilled values =>
      all_values (map (fun it => default Pending (loads !! it.2)) (items b))
      = Some values
  | AllPending =>
      first_rejection (map (fun it => default Pending (loads !! it.2)) (items b))
      = None
  end.
Proof.
  unfold promise_all.
  destruct (first_rejection _) as [e|] eqn:Hfr; [done|].
  by destruct (all_values _) as [values|] eqn:Hall.
Qed.

Lemma wf_head_nodup cs b bs n : wf cs (b :: bs) n -> NoDup (batch_promises b).
Proof.
  intros [_ _ Hnd _]. rewrite batched_cons in Hnd.
  apply NoDup_app in Hnd as (_ & _ & Hnd). by apply NoDup_app in Hnd as (Hnd & _ & _).
Qed.

Lemma wf_head_bound cs b bs n k g lp :
  wf cs (b :: bs) n -> (k, g, lp) ∈ items b ->
  memo cs (owner b) k = Some g /\ (g < n)%nat /\ g ∉ batched bs.
Proof.
  intros Hwf Hit.
  pose proof (wf_batch _ _ _ Hwf b k g lp ltac:(by apply elem_of_cons; left) Hit) as Hm.
  split; [done|]. split; [by eapply (wf_bound _ _ _ Hwf)|].
  apply (wf_head_fresh _ _ _ _ g Hwf).
  by apply (list_elem_of_fmap_2 (fun it => it.1.2) _ (k, g, lp)).
Qed.

Lemma resolve_all_lookup its : forall values gp j k g lp v,
  NoDup ((fun it => it.1.2) <$> its) ->
  (forall k g lp, (k, g, lp) ∈ its -> (g < length gp)%nat) ->
  its !! j = Some (k, g, lp) ->
  values !! j = Some v ->
  resolve_all its values gp !! g = Some (Fulfilled v).
Proof.
  induction its as [|[[k0 g0] lp0] its IH]; intros values gp j k g lp v Hnd Hbd Hj Hv.
  { by rewrite lookup_nil in Hj. }
  destruct values as [|v0 values]; [by rewrite lookup_nil in Hv|].
  rewrite fmap_cons in Hnd. cbn [fst snd] in Hnd.
  apply NoDup_cons in Hnd as [Hfresh Hnd].
  change (resolve_all ((k0, g0, lp0) :: its) (v0 :: values) gp)
    with (resolve_all its values (<[g0 := Fulfilled v0]> gp)).
  destruct j as [|j]; cbn in Hj, Hv.
  - injection Hj as -> -> ->. injection Hv as ->.
    destruct (resolve_all_spec its values (<[g := Fulfilled v]> gp)) as [_ Hframe].
    rewrite (Hframe g Hfresh). apply list_lookup_insert_eq.
    apply (Hbd k g lp). apply elem_of_cons. by left.
  - apply (IH values _ j k g lp v Hnd); [|done|done].
    intros k' g' lp' Hin. rewrite length_insert. apply (Hbd k' g' lp').
    apply elem_of_cons. by right.
Qed.

(** How a batch that has settled leaves its promises and its memo. *)
Lemma settle_batches_batch loads bs : forall cs gp bs' cs' gp' b,
  wf cs bs (length gp) ->
  b ∈ bs ->
  settle_batches loads bs cs gp = (bs', cs', gp') ->
  match promise_all loads b with
  | AllPending => True
  | AllRejected e =>
      forall k g lp, (k, g, lp) ∈ items b ->
        gp' !! g = Some (Rejected e) /\ memo cs' (owner b) k = None
  | AllFulfilled values =>
      forall j k g lp, items b !! j = Some (k, g, lp) ->
        exists v, loads !! lp = Some (Fulfilled v)
                  /\ gp' !! g = Some (Fulfilled v)
                  /\ memo cs' (owner b) k = Some g
  end.
Proof.
  induction bs as [|b0 bs IH]; intros cs gp bs' cs' gp' b Hwf Hb.
  { by apply elem_of_nil in Hb. }
  cbn [settle_batches]. apply elem_of_cons in Hb as [<-|Hb].
  - pose proof (promise_all_cases loads b) as Hcases.
    destruct (promise_all loads b) as [|values|e]; [done|..].
    + intros Hrec j k g lp Hj.
      assert (Hit : (k, g, lp) ∈ items b) by (by eapply list_elem_of_lookup_2).
      destruct (wf_head_bound _ _ _ _ k g lp Hwf Hit) as (Hm & Hlt & Hfresh).
      destruct (all_values_lookup _ _ Hcases j (default Pending (loads !! lp)))
        as (v & Hv & Hvj).
      { rewrite list_lookup_fmap, Hj. done. }
      exists v. split.
      { destruct (loads !! lp) as [m|]; cbn in Hv; [by rewrite Hv|done]. }
      destruct (settle_batches_frame _ _ _ _ _ _ _ Hrec) as (_ & _ & _ & Hframe & _).
      destruct (resolve_all_spec (items b) values gp) as [Hlen1 _].
      assert (Hgp : gp' !! g = Some (Fulfilled v)).
      { rewrite (Hframe g Hfresh).
        apply (resolve_all_lookup (items b) values gp j k g lp v);
          [apply (wf_head_nodup _ _ _ _ Hwf)| |done|done].
        intros k' g' lp' Hin.
        by destruct (wf_head_bound _ _ _ _ k' g' lp' Hwf Hin) as (_ & ? & _). }
      split; [done|].
      destruct (settle_batches_wf _ _ _ _ _ _ _
                  (wf_length _ _ _ _ (eq_sym Hlen1) (wf_tail _ _ _ _ Hwf)) Hrec)
        as [_ Hpers].
      destruct (Hpers _ _ _ Hm) as [?|(_ & _ & e & He)]; [done|congruence].
    + intros Hrec k g lp Hit.
      destruct (wf_head_bound _ _ _ _ k g lp Hwf Hit) as (Hm & Hlt & Hfresh).
      unfold memo in Hm. destruct (cs !! owner b) as [l|] eqn:Hl; [|done].
      cbn in Hm.
      pose proof (failedDispatch_spec (items b) e l gp) as Hfd.
      destruct (failedDispatch (items b) e l gp) as [l' gp1]. cbv zeta in Hfd.
      cbn [fst snd] in Hfd. destruct Hfd as (_ & _ & Hmemo1 & _ & Hrej).
      destruct (settle_batches_frame _ _ _ _ _ _ _ Hrec)
        as (_ & _ & _ & Hframe & Hshrink).
      split.
      * rewrite (Hframe g Hfresh). apply Hrej; [|done].
        by apply (list_elem_of_fmap_2 (fun it => it.1.2) _ (k, g, lp)).
      * destruct (memo cs' (owner b) k) as [g'|] eqn:Hm'; [|done].
        apply Hshrink in Hm'.
        rewrite (memo_insert cs (owner b) l l' _ k Hl), decide_True in Hm' by done.
        rewrite Hmemo1, decide_True in Hm'; [done|].
        by apply (list_elem_of_fmap_2 (fun it => it.1.1) _ (k, g, lp)).
  - destruct (promise_all loads b0) as [|values0|e0].
    + destruct (settle_batches loads bs cs gp) as [[bs1 cs1] gp1] eqn:Hrec.
      intros [= <- <- <-]. by eapply (IH _ _ _ _ _ b (wf_tail _ _ _ _ Hwf)).
    + destruct (resolve_all_spec (items b0) values0 gp) as [Hlen1 _].
      intros Hrec.
      by eapply (IH _ _ _ _ _ b
                   (wf_length _ _ _ _ (eq_sym Hlen1) (wf_tail _ _ _ _ Hwf))).
    + destruct (cs !! owner b0) as [l|] eqn:Hl.
      * pose proof (wf_failedDispatch cs b0 bs gp e0 l Hwf Hl) as Hwf1.
        destruct (failedDispatch (items b0) e0 l gp) as [l' gp1]. cbn [fst snd] in Hwf1.
        intros Hrec. by eapply (IH _ _ _ _ _ b Hwf1).
      * intros Hrec. by eapply (IH _ _ _ _ _ b (wf_tail _ _ _ _ Hwf)).
Qed.

Lemma settle_batches_all_pending loads bs : forall cs gp bs' cs' gp' b,
  settle_batches loads bs cs gp = (bs', cs', gp') ->
  b ∈ bs' -> promise_all loads b = AllPending.
Proof.
  induction bs as [|b0 bs IH]; intros cs gp bs' cs' gp' b; cbn [settle_batches].
  - intros [= <- <- <-] Hb. by apply elem_of_nil in Hb.
  - destruct (promise_all loads b0) as [|values|e] eqn:Hb0.
    + destruct (settle_batches loads bs cs gp) as [[bs1 cs1] gp1] eqn:Hrec.
      intros [= <- <- <-] [->|Hb]%elem_of_cons; [done|]. by eapply IH.
    + by apply IH.
    + destruct (cs !! owner b0) as [l|].
      * destruct (failedDispatch (items b0) e l gp) as [l' gp1]. by apply IH.
      * by apply IH.
Qed.

Lemma settled_all_pending w s : all_pending (settled w s).
Proof.
  unfold all_pending, settled.
  destruct (settle_batches (loadPromises w) (batches s) (connectors s) (getPromises s))
    as [[bs' cs'] gp'] eqn:Hset.
  cbn [batches world]. intros b Hb. by eapply settle_batches_all_pending.
Qed.

Lemma sys_step_all_pending now ev s s' :
  all_pending s -> sys_step now ev s = Some s' -> all_pending s'.
Proof.
  intros Hp Hstep. destruct ev as [o| |c a|c|ev]; cbn [sys_step] in Hstep.
  - by injection Hstep as <-.
  - by injection Hstep as <-.
  - unfold Connector.get in Hstep.
    destruct (heap s !! a); [|done]. cbn [mbind option_bind] in Hstep.
    destruct (connectors s !! c); [|done]. cbn [mbind option_bind] in Hstep.
    destruct (DataLoader.load _ _ _) as [[l' gp] p]. by injection Hstep as <-.
  - unfold Connector.dispatch in Hstep.
    destruct (connectors s !! c) as [l|]; [|done]. cbn [mbind option_bind] in Hstep.
    destruct (DataLoader._queue l) as [|kp q] eqn:Hq; [done|]. rewrite <- Hq in Hstep.
    destruct (Connector.fetch now (DataLoader._queue l) (world s)) as [w' its].
    injection Hstep as <-. apply settled_all_pending.
  - destruct ev as [url| |i r]; [done| |];
      (destruct (step now _ (world s)) as [w'|] eqn:Hs; [|done]);
      injection Hstep as <-; apply settled_all_pending.
Qed.

Lemma sys_run_all_pending evs : forall s s',
  all_pending s -> sys_run evs s = Some s' -> all_pending s'.
Proof.
  induction evs as [|[now ev] evs IH]; cbn [sys_run]; intros s s' Hp Hrun.
  - by injection Hrun as <-.
  - destruct (sys_step now ev s) as [s1|] eqn:Hstep; [|done].
    eapply IH; [|exact Hrun]. by eapply sys_step_all_pending.
Qed.

Lemma start_all_pending : all_pending start.
Proof. intros b Hb. by apply elem_of_nil in Hb. Qed.

(** X9. One failed key fails the whole batch.  [fetch] joins the loads of
    a batch with [Promise.all]: when the request of one key of a waiting
    batch is rejected, the promise of every [get] of that batch is
    rejected with that same error -- also of keys that were served from
    the cache or whose own request is still to settle -- and the loader
    forgets every key of the batch, so that the next [get] for one of
    them on that connector gets a new promise.  The cache is not
    touched. *)
Theorem failed_key_fails_batch (evs : list (Z * SysEvent)) (s : System) (now : Z)
    (i p : nat) (url : string) (e0 : FetchError) (b : Batch) (k0 : string) (g0 : nat) :
  sys_run evs start = Some s ->
  requests (world s) !! i = Some (InLoadUrl p url) ->
  b ∈ batches s ->
  (k0, g0, p) ∈ items b ->
  exists s',
    sys_step now (Loop (Settle i (inr e0))) s = Some s'
    /\ sharedBifrostCache (world s') = sharedBifrostCache (world s)
    /\ forall k g lp,
        (k, g, lp) ∈ items b ->
        getPromises s' !! g = Some (Rejected e0)
        /\ memo (connectors s') (owner b) k = None
        /\ forall a o,
            heap s' !! a = Some o ->
            Connector.key_of o = k ->
            exists s2,
              Connector.get (owner b) a s' = Some (s2, length (getPromises s')).
Proof.
  intros Hrun Hreq Hb Hit0.
  destruct (sys_run_start evs s Hrun) as [Hwf Hreach].
  pose proof (sys_run_all_pending evs start s start_all_pending Hrun b Hb) as Hpend.
  pose proof (load_promise_allocated _ Hreach i p url Hreq) as Hlt.
  set (w' := PwConnector.resume now (InLoadUrl p url) (inr e0)
               (set_requests (delete i (requests (world s))) (world s))).
  assert (Hstep : step now (Settle i (inr e0)) (world s) = Some w')
    by (unfold step; by rewrite Hreq).
  assert (Hloads : loadPromises w' = <[p := Rejected e0]> (loadPromises (world s)))
    by done.
  exists (settled w' s). cbn [sys_step]. rewrite Hstep. split; [done|].
  rewrite world_settled. split; [done|].
  assert (Hall : promise_all (loadPromises w') b = AllRejected e0).
  { pose proof (promise_all_cases (loadPromises (world s)) b) as Hold.
    rewrite Hpend in Hold.
    pose proof (proj1 (first_rejection_None _) Hold) as Hnone.
    unfold promise_all.
    rewrite (first_rejection_only _ e0); [done| |].
    - intros j e Hj. rewrite list_lookup_fmap in Hj.
      destruct (items b !! j) as [[[k g] lp]|] eqn:Hitj; [|done].
      cbn in Hj.
      destruct (decide (lp = p)) as [->|Hne].
      + rewrite list_lookup_insert_eq in Hj by done. cbn in Hj. congruence.
      + rewrite list_lookup_insert_ne in Hj by done.
        destruct (Hnone j e). rewrite list_lookup_fmap, Hitj. cbn. congruence.
    - apply list_elem_of_lookup in Hit0 as [j Hj]. exists j, e0.
      rewrite list_lookup_fmap, Hj. cbn.
      by rewrite list_lookup_insert_eq. }
  intros k g lp Hit.
  unfold settled.
  destruct (settle_batches (loadPromises w') (batches s) (connectors s) (getPromises s))
    as [[bs' cs'] gp'] eqn:Hset.
  cbn [getPromises connectors heap].
  pose proof (settle_batches_batch _ _ _ _ _ _ _ b Hwf Hb Hset) as Hbatch.
  rewrite Hall in Hbatch. destruct (Hbatch k g lp Hit) as [Hg Hm].
  split; [done|]. split; [done|].
  intros a o Ho Hkey.
  destruct (settle_batches_frame _ _ _ _ _ _ _ Hset) as (Hq & _ & _ & _ & _).
  assert (Hown : is_Some (cs' !! owner b)).
  { apply lookup_lt_is_Some.
    rewrite <- (length_fmap DataLoader._queue cs'), Hq, length_fmap.
    pose proof (wf_batch _ _ _ Hwf b k g lp Hb Hit) as Hmemo.
    unfold memo in Hmemo. destruct (connectors s !! owner b) eqn:Hl; [|done].
    by eapply lookup_lt_Some. }
  destruct Hown as [l' Hl'].
  unfold memo in Hm. rewrite Hl' in Hm. cbn in Hm. rewrite <- Hkey in Hm.
  rewrite (get_not_memoised (mkSystem w' (heap s) cs' gp' bs') (owner b) a o l' Ho Hl' Hm).
  by eexists.
Qed.

Lemma failed_key_fails_batch_witness :
  exists s',
    sys_step (Scenario.minutes 11)
      (Loop (Settle 0 (inr (StatusCodeError 500)))) TwoKeys.waiting = Some s'
    /\ sharedBifrostCache (world s') = sharedBifrostCache (world TwoKeys.waiting)
    /\ forall k g lp,
        (k, g, lp) ∈ items TwoKeys.batch ->
        getPromises s' !! g = Some (Rejected (StatusCodeError 500))
        /\ memo (connectors s') (owner TwoKeys.batch) k = None
        /\ forall a o,
            heap s' !! a = Some o ->
            Connector.key_of o = k ->
            exists s2,
              Connector.get (owner TwoKeys.batch) a s'
              = Some (s2, length (getPromises s')).
Proof.
  apply (failed_key_fails_batch TwoKeys.asks TwoKeys.waiting (Scenario.minutes 11)
           0 2 TwoKeys.keyB (StatusCodeError 500) TwoKeys.batch TwoKeys.keyB 2).
  - vm_compute. reflexivity.
  - vm_compute. reflexivity.
  - vm_compute. apply elem_of_cons. by left.
  - apply elem_of_cons. right. apply elem_of_cons. by left.
Defined.

Lemma promise_all_fulfilled loads b :
  (forall k g lp, (k, g, lp) ∈ items b ->
                  exists v, loads !! lp = Some (Fulfilled v)) ->
  exists values, promise_all loads b = AllFulfilled values.
Proof.
  unfold promise_all. induction (items b) as [|[[k g] lp] its IH]; intros Hall.
  - by exists [].
  - destruct (Hall k g lp) as [v Hv]; [apply elem_of_cons; by left|].
    destruct IH as [values IH].
    { intros k' g' lp' Hin. apply (Hall k' g' lp'). apply elem_of_cons. by right. }
    cbn [map first_rejection all_values snd]. rewrite Hv. cbn [default].
    cbn [first_rejection all_values].
    destruct (first_rejection _) as [e|]; [done|].
    destruct (all_values _) as [vs|]; [|done].
    by exists (v :: vs).
Qed.

(** X10. Results are delivered by key.  When an event of the loop leaves
    every [_loadUrl] promise of a waiting batch fulfilled, the loader
    resolves the promise of each [get] of the batch with the body its own
    key's [_loadUrl] produced -- [Promise.all] keeps the order of [urls]
    and the loader matches values to keys by index -- and each key stays
    memoised on its connector. *)
Theorem batch_results_by_key (evs : list (Z * SysEvent)) (s s' : System) (now : Z)
    (ev : Event) (b : Batch) :
  sys_run evs start = Some s ->
  b ∈ batches s ->
  sys_step now (Loop ev) s = Some s' ->
  (forall k g lp, (k, g, lp) ∈ items b ->
                  exists v, loadPromises (world s') !! lp = Some (Fulfilled v)) ->
  forall k g lp,
    (k, g, lp) ∈ items b ->
    exists v,
      loadPromises (world s') !! lp = Some (Fulfilled v)
      /\ getPromises s' !! g = Some (Fulfilled v)
      /\ memo (connectors s') (owner b) k = Some g.
Proof.
  intros Hrun Hb Hstep Hful k g lp Hit.
  destruct (sys_run_start evs s Hrun) as [Hwf _].
  assert (exists w', s' = settled w' s) as [w' ->].
  { cbn [sys_step] in Hstep. destruct ev as [url| |i r]; [done| |];
      (destruct (step now _ (world s)) as [w'|]; [|done]);
      injection Hstep as <-; by exists w'. }
  rewrite world_settled in Hful. rewrite world_settled.
  destruct (promise_all_fulfilled _ _ Hful) as [values Hall].
  unfold settled.
  destruct (settle_batches (loadPromises w') (batches s) (connectors s) (getPromises s))
    as [[bs' cs'] gp'] eqn:Hset.
  cbn [getPromises connectors].
  pose proof (settle_batches_batch _ _ _ _ _ _ _ b Hwf Hb Hset) as Hbatch.
  rewrite Hall in Hbatch.
  apply list_elem_of_lookup in Hit as [j Hj].
  exact (Hbatch j k g lp Hj).
Qed.

Lemma batch_results_by_key_witness :
  exists v,
    loadPromises (world TwoKeys.answered) !! 1%nat = Some (Fulfilled v)
    /\ getPromises TwoKeys.answered !! 1%nat = Some (Fulfilled v)
    /\ memo (connectors TwoKeys.answered) (owner TwoKeys.batch) Scenario.keyA
       = Some 1%nat.
Proof.
  apply (batch_results_by_key TwoKeys.asks TwoKeys.waiting TwoKeys.answered
           (Scenario.minutes 11) (Settle 0 (inl TwoKeys.xB)) TwoKeys.batch).
  - vm_compute. reflexivity.
  - vm_compute. apply elem_of_cons. by left.
  - vm_compute. reflexivity.
  - intros k g lp [Hit|Hit]%elem_of_cons.
    + injection Hit as -> -> ->. eexists. vm_compute. reflexivity.
    + apply elem_of_cons in Hit as [Hit|Hit]; [|by apply elem_of_nil in Hit].
      injection Hit as -> -> ->. eexists. vm_compute. reflexivity.
  - apply elem_of_cons. by left.
Defined.

(** ** One cache for every connector *)

(** X11. The cache is shared by all connectors.  In any state the system
    can reach, when the cache holds a fresh entry for the key of an
    arguments object, a connector constructed now -- as the service does
    for each request -- that is asked for these arguments is served the
    cached body when its loader dispatches: its promise is fulfilled with
    the body stored by whichever connector fetched it, and no request is
    issued, nothing is scheduled and the cache is not changed. *)
Theorem new_connector_reads_shared_cache (evs : list (Z * SysEvent)) (s : System)
    (now : Z) (a : nat) (o : JsObject) (item : CacheItem) :
  sys_run evs start = Some s ->
  heap s !! a = Some o ->
  BifrostCache._backend (sharedBifrostCache (world s)) !! Connector.key_of o
  = Some item ->
  now - ts item <= BifrostCache._CACHE_LIFETIME ->
  exists s',
    sys_run [(now, NewConnector); (now, Get (length (connectors s)) a);
             (now, Dispatch (length (connectors s)))] s = Some s'
    /\ getPromises s' !! length (getPromises s) = Some (Fulfilled (body (val item)))
    /\ sharedBifrostCache (world s') = sharedBifrostCache (world s)
    /\ requests (world s') = requests (world s)
    /\ ticks (world s') = ticks (world s)
    /\ effects (world s') = effects (world s).
Proof.
  intros Hrun Ho Hitem Hfresh.
  destruct (sys_run_start evs s Hrun) as [Hwf _].
  set (c := length (connectors s)).
  set (s1 := mkSystem (world s) (heap s) (connectors s ++ [DataLoader.new])
                      (getPromises s) (batches s)).
  destruct (new_connector_kept s Hwf) as [Hwf1 _]. cbv zeta in Hwf1. fold s1 in Hwf1.
  assert (Hl : connectors s1 !! c = Some DataLoader.new) by apply lookup_snoc_length.
  pose proof (get_not_memoised s1 c a o DataLoader.new Ho Hl (lookup_empty _)) as Hget.
  destruct (get_kept s1 c a _ _ Hwf1 Hget) as [Hwf2 _].
  match type of Hget with _ = Some (?x, _) => set (s2 := x) in * end.
  assert (Hl2 : connectors s2 !! c
                = Some {| DataLoader._promiseCache :=
                            <[Connector.key_of o := length (getPromises s)]> ∅;
                          DataLoader._queue :=
                            [(Connector.key_of o, length (getPromises s))] |}).
  { cbn [s2 connectors]. by rewrite list_lookup_insert_eq by by eapply lookup_lt_Some. }
  pose proof (get_lookup now _ _ _ Hitem) as Hcache.
  unfold BifrostCache._CACHE_LIFETIME in Hfresh.
  rewrite bool_decide_eq_false_2 in Hcache by lia.
  destruct (lone_get_hit now s2 c _ _ _ _ _ Hwf2 Hl2 eq_refl Hcache)
    as (s' & Hd & Hw & Hp).
  exists s'. cbn [sys_run sys_step]. fold s1. fold c. rewrite Hget.
  cbn [fmap option_fmap option_map fst]. rewrite Hd.
  split; [done|]. split; [done|].
  rewrite Hw. cbn [s2 world s1].
  destruct (loadUrl_fresh_hit now _ item (world s) Hitem) as [_ (w' & p & Hload & _ & Hrest)];
    [lia|].
  rewrite Hload. cbn [fst]. by destruct Hrest as (? & ? & ? & ?).
Qed.

Lemma new_connector_reads_shared_cache_witness :
  exists s',
    sys_run [(Scenario.minutes 10, NewConnector);
             (Scenario.minutes 10, Get (length (connectors TwoKeys.waiting)) 0);
             (Scenario.minutes 10, Dispatch (length (connectors TwoKeys.waiting)))]
            TwoKeys.waiting = Some s'
    /\ getPromises s' !! length (getPromises TwoKeys.waiting)
       = Some (Fulfilled (body (val (mkItem 0 Scenario.x1))))
    /\ sharedBifrostCache (world s') = sharedBifrostCache (world TwoKeys.waiting)
    /\ requests (world s') = requests (world TwoKeys.waiting)
    /\ ticks (world s') = ticks (world TwoKeys.waiting)
    /\ effects (world s') = effects (world TwoKeys.waiting).
Proof.
  apply (new_connector_reads_shared_cache TwoKeys.asks TwoKeys.waiting
           (Scenario.minutes 10) 0 (defaults Scenario.argsA qsDefaults)
           (mkItem 0 Scenario.x1)).
  - vm_compute. reflexivity.
  - vm_compute. reflexivity.
  - vm_compute. reflexivity.
  - vm_compute. discriminate.
Defined.

(** X12. Asking twice is asking once.  A [get] repeated on the same
    connector with the same arguments object -- which the first call has
    completed with the defaults -- returns the promise of the first call
    and changes nothing: not the object, not the loader's queue, not the
    promises. *)
Theorem repeated_get_is_noop (s s1 : System) (c a p : nat) :
  Connector.get c a s = Some (s1, p) ->
  Connector.get c a s1 = Some (s1, p).
Proof.
  intros Hget. unfold Connector.get in Hget.
  destruct (heap s !! a) as [o|] eqn:Ho; [|done]. cbn [mbind option_bind] in Hget.
  destruct (connectors s !! c) as [l|] eqn:Hl; [|done]. cbn [mbind option_bind] in Hget.
  fold (Connector.key_of o) in Hget.
  pose proof (load_memoises (Connector.key_of o) l (getPromises s)) as Hm.
  destruct (DataLoader.load (Connector.key_of o) l (getPromises s)) as [[l' gp] p'].
  cbn [fst snd] in Hm. injection Hget as <- <-.
  assert (Ho1 : (<[a := defaults o qsDefaults]> (heap s)) !! a
                = Some (defaults o qsDefaults))
    by (by rewrite list_lookup_insert_eq by by eapply lookup_lt_Some).
  assert (Hl1 : (<[c := l']> (connectors s)) !! c = Some l')
    by (by rewrite list_lookup_insert_eq by by eapply lookup_lt_Some).
  assert (Hkey : Connector.key_of (defaults o qsDefaults) = Connector.key_of o)
    by (unfold Connector.key_of; by rewrite defaults_idempotent).
  rewrite (get_memoised _ c a (defaults o qsDefaults) l' p'); cbn [heap connectors];
    [|done|done|by rewrite Hkey].
  cbn [world getPromises batches]. rewrite defaults_idempotent.
  by rewrite list_insert_insert_eq.
Qed.

Lemma repeated_get_is_noop_witness :
  Connector.get 0 0 Scenario.asked
  = Some (Scenario.asked, 0%nat).
Proof.
  apply (repeated_get_is_noop
           (default start (sys_run [(0, NewConnector); (0, NewObject Scenario.argsA)] start))
           Scenario.asked 0 0 0).
  vm_compute. reflexivity.
Defined.

(** ** Cache keys *)

Lemma escape_byte c :
  if noEscape c
  then c <> "="%char /\ c <> "&"%char /\ c <> "%"%char
  else hexDigit (nat_of_ascii c / 16) <> "="%char
       /\ hexDigit (nat_of_ascii c / 16) <> "&"%char
       /\ hexDigit (nat_of_ascii c mod 16) <> "="%char
       /\ hexDigit (nat_of_ascii c mod 16) <> "&"%char
       /\ ascii_of_nat (hexVal (hexDigit (nat_of_ascii c / 16)) * 16
                        + hexVal (hexDigit (nat_of_ascii c mod 16))) = c.
Proof.
  destruct c as [[] [] [] [] [] [] [] []]; vm_compute;
    repeat match goal with |- _ /\ _ => split end;
    try discriminate; reflexivity.
Qed.

Lemma occurrences_app c a b :
  occurrences c (a +:+ b) = (occurrences c a + occurrences c b)%nat.
Proof.
  induction a as [|c' a IH]; [done|].
  change (String c' a +:+ b) with (String c' (a +:+ b)).
  cbn [occurrences]. rewrite IH. lia.
Qed.

Lemma occurrences_neq c c' s :
  c' <> c -> occurrences c (String c' s) = occurrences c s.
Proof.
  intros Hne. cbn [occurrences]. by rewrite (proj2 (Ascii.eqb_neq c' c) Hne).
Qed.

Lemma occurrences_eq c s : occurrences c (String c s) = S (occurrences c s).
Proof. cbn [occurrences]. by rewrite Ascii.eqb_refl. Qed.

(** Escaped text holds neither separator. *)
Lemma qsEscape_separators s :
  occurrences "=" (qsEscape s) = 0%nat /\ occurrences "&" (qsEscape s) = 0%nat.
Proof.
  induction s as [|c s [IH1 IH2]]; [done|].
  cbn [qsEscape]. pose proof (escape_byte c) as Hc.
  destruct (noEscape c).
  - destruct Hc as (H1 & H2 & _). by rewrite !occurrences_neq.
  - destruct Hc as (H1 & H2 & H3 & H4 & _). by rewrite !occurrences_neq.
Qed.






Lemma append_nil_r s : s +:+ "" = s.
Proof.
  induction s as [|c s IH]; [done|].
  change (String c s +:+ "") with (String c (s +:+ "")). by rewrite IH.
Qed.

Lemma encode_cons k v o :
  encode ((k, v) :: o)
  = qsEscape k +:+ String "=" (qsEscape v +:+ match o with
                                              | [] => ""
                                              | _ => String "&" (encode o)
                                              end).
Proof.
  destruct o as [|[k' v'] o]; [|done].
  by rewrite append_nil_r.
Qed.





(** X14. Values cannot add parameters.  Whatever characters the names and
    values of the parameters hold, the query string [get] builds has one
    [=] for each parameter and one [&] between two parameters: a value
    holding [&] or [=] reaches the upstream API as part of that value. *)
Theorem encode_one_pair_per_parameter (o : JsObject) :
  occurrences "=" (encode o) = length o
  /\ occurrences "&" (encode o) = (length o - 1)%nat.
Proof.
  induction o as [|[k v] o [IH1 IH2]]; [done|].
  rewrite encode_cons.
  destruct (qsEscape_separators k) as [Hk1 Hk2].
  destruct (qsEscape_separators v) as [Hv1 Hv2].
  rewrite !occurrences_app, Hk1, Hk2, occurrences_eq.
  rewrite (occurrences_neq "&" "=") by discriminate.
  rewrite !occurrences_app, Hv1, Hv2.
  destruct o as [|kv o]; [done|].
  rewrite occurrences_eq, (occurrences_neq "=" "&") by discriminate.
  rewrite IH1, IH2. cbn [length]. lia.
Qed.

(** ** Promises of [_loadUrl] *)

(** In every reachable state a pending promise of [_loadUrl] waits on
    exactly one outstanding request, a settled one on none. *)
Lemma in_flight_pending (w : World) (p : nat) :
  reachable w ->
  in_flight p w = if is_pending (loadPromises w !! p) then 1%nat else 0%nat.
Proof.
  intros Hw. revert p. pattern w. revert w Hw. apply reachable_invariant.
  - intros p. by destruct p.
  - intros now ev w w' IH Hstep p. unfold in_flight in *.
    assert (Hnew : count (fun k => cont_promise k = Some (length (loadPromises w)))
                         (requests w) = 0%nat).
    { rewrite IH. by rewrite (lookup_ge_None_2 (loadPromises w) _ (le_n _)). }
    assert (Hsnoc : forall st,
              (loadPromises w ++ [st]) !! p
              = if decide (p = length (loadPromises w)) then Some st
                else loadPromises w !! p).
    { intros st. destruct (decide (p = length (loadPromises w))) as [->|Hne].
      - apply lookup_snoc_length.
      - destruct (decide (p < length (loadPromises w))%nat).
        + by rewrite lookup_app_l.
        + rewrite !lookup_ge_None_2; [done|lia|rewrite length_app; cbn; lia]. }
    step_cases Hstep; rewrite ?count_app, ?count_cons, ?count_nil, ?Hsnoc.
    + cbn [cont_promise]. destruct (decide (p = length (loadPromises w))) as [->|Hne].
      * rewrite Hnew, decide_True by done. done.
      * rewrite decide_False by congruence. rewrite IH. lia.
    + destruct (decide (p = length (loadPromises w))) as [->|Hne]; [by rewrite Hnew|].
      apply IH.
    + destruct (decide (p = length (loadPromises w))) as [->|Hne]; [by rewrite Hnew|].
      apply IH.
    + cbn [cont_promise]. rewrite decide_False by done. rewrite IH. lia.
    + pose proof (IH p) as IHp.
      rewrite (count_delete _ _ _ _ H) in IHp. cbn [cont_promise] in IHp.
      destruct (decide (p = p0)) as [->|Hne].
      * rewrite decide_True in IHp by done.
        destruct (is_pending (loadPromises w !! p0)) eqn:Hpend; [|lia].
        rewrite list_lookup_insert_eq; [cbn; lia|].
        apply lookup_lt_is_Some. by destruct (loadPromises w !! p0).
      * rewrite decide_False in IHp by congruence.
        by rewrite list_lookup_insert_ne.
    + pose proof (IH p) as IHp.
      rewrite (count_delete _ _ _ _ H) in IHp. cbn [cont_promise] in IHp.
      destruct (decide (p = p0)) as [->|Hne].
      * rewrite decide_True in IHp by done.
        destruct (is_pending (loadPromises w !! p0)) eqn:Hpend; [|lia].
        rewrite list_lookup_insert_eq; [cbn; lia|].
        apply lookup_lt_is_Some. by destruct (loadPromises w !! p0).
      * rewrite decide_False in IHp by congruence.
        by rewrite list_lookup_insert_ne.
    + pose proof (IH p) as IHp.
      rewrite (count_delete _ _ _ _ H) in IHp. cbn [cont_promise] in IHp.
      by rewrite decide_False in IHp by done.
    + pose proof (IH p) as IHp.
      rewrite (count_delete _ _ _ _ H) in IHp. cbn [cont_promise] in IHp.
      by rewrite decide_False in IHp by done.
Qed.

Lemma count_pos {A : Type} (P : A -> Prop) `{!forall x, Decision (P x)} (l : list A) :
  (0 < count P l)%nat <-> exists i x, l !! i = Some x /\ P x.
Proof.
  induction l as [|a l IH]; [rewrite count_nil|rewrite count_cons].
  - split; [lia|]. intros (i & x & Hi & _). by destruct i.
  - destruct (decide (P a)) as [Ha|Hna].
    + split; [|lia]. intros _. by exists 0%nat, a.
    + rewrite Nat.add_0_l, IH. split.
      * intros (i & x & Hi & Hx). by exists (S i), x.
      * intros ([|i] & x & Hi & Hx); [by injection Hi as ->|]. by exists i, x.
Qed.

Lemma is_pending_true st : is_pending st = true <-> st = Some Pending.
Proof. destruct st as [[| |]|]; by split. Qed.

(** X15. A promise of [_loadUrl] is pending exactly while its request is
    in flight.  In every reachable state a promise is pending if and only
    if a suspended [_loadUrl] coroutine waits on a request to settle it,
    and no promise has two: a call that found the key in the cache is
    settled when it returns, a call that missed is settled by its own
    request and by nothing else, and no promise is settled twice or left
    pending with nothing to settle it. *)
Theorem load_promise_pending_iff_in_flight (w : World) (p : nat) :
  reachable w ->
  (loadPromises w !! p = Some Pending
   <-> exists i url, requests w !! i = Some (InLoadUrl p url))
  /\ (in_flight p w <= 1)%nat.
Proof.
  intros Hw. pose proof (in_flight_pending w p Hw) as Hin.
  split; [|destruct (is_pending _); lia].
  rewrite <- is_pending_true. unfold in_flight in Hin. split.
  - intros Hp. rewrite Hp in Hin.
    assert (Hpos : (0 < count (fun k => cont_promise k = Some p) (requests w))%nat) by lia.
    apply count_pos in Hpos as (i & k & Hi & Hk).
    destruct k as [p' url|url]; [|done]. injection Hk as ->. by exists i, url.
  - intros (i & url & Hi).
    assert (Hpos : (0 < count (fun k => cont_promise k = Some p) (requests w))%nat)
      by (apply count_pos; by exists i, (InLoadUrl p url)).
    destruct (is_pending _); [done|lia].
Qed.

Lemma load_promise_pending_iff_in_flight_witness :
  (loadPromises (world TwoKeys.waiting) !! 2%nat = Some Pending
   <-> exists i url, requests (world TwoKeys.waiting) !! i = Some (InLoadUrl 2 url))
  /\ (in_flight 2 (world TwoKeys.waiting) <= 1)%nat.
Proof.
  apply (load_promise_pending_iff_in_flight (world TwoKeys.waiting) 2).
  apply (sys_run_start TwoKeys.asks). vm_compute. reflexivity.
Defined.

(** ** No [get] is left hanging *)












